(** * CustomElementsLazyLoader: a shallow embedding and its properties

    The development follows [src/custom-elements-lazy-loader.mjs].  The
    class is a [MutationObserver] whose callback and whose [observe] method
    push every candidate element through
    [#resolveNames] -> [#shouldHandle] -> [#define] (-> [#load]).

    Modelling decisions, fixed here once:
    - A [string] is a JavaScript string whose code units are all below
      256 (the ASCII and Latin-1 range); on these, [toLowerCase],
      [charCodeAt], [indexOf] and the comparisons are those of JavaScript.
      Strings with code units from 256 up are outside the model.
    - JavaScript values that are not functions are the inductive [value];
      functions appear only where the program calls them, as Rocq functions,
      and classes (custom element constructors) by identity in [loaded].
    - Effects (calls of the user's callbacks, console output, the calls of
      [customElements.define], unhandled promise rejections) are recorded in
      order in the [trace] of a [World]; the registry and the promise chains
      that are still in flight are the other two components of the [World].
    - The synchronous part of a pipeline run and its asynchronous
      continuation ([define_continuation]) are separate functions, as the promise chain of
      [#define] separates them. *)

From Stdlib Require Import ZArith Ascii String List Bool.
From stdpp Require Import base option list gmap strings pretty.

Local Open Scope string_scope.
Local Open Scope Z_scope.
Local Open Scope list_scope.

(** ** JavaScript values *)

(** A [URL] object; [href] is what [`${url}`] prints. *)
Record URL : Type := mkURL { href : string }.

Inductive value : Type :=
| VUndefined
| VNull
| VBool (b : bool)
| VNumber (z : Z)      (* the integral numbers; [VNaN] stands apart *)
| VNaN
| VString (s : string)
| VUrl (u : URL)
| VObject (id : nat).  (* any other object that is not a function, by identity *)

#[global] Instance URL_eq_dec : EqDecision URL.
Proof. solve_decision. Defined.

#[global] Instance value_eq_dec : EqDecision value.
Proof. solve_decision. Defined.

(** [!!v] *)
Definition truthy (v : value) : bool :=
  match v with
  | VUndefined | VNull | VNaN => false
  | VBool b => b
  | VNumber z => negb (z =? 0)
  | VString s => negb (String.eqb s "")
  | VUrl _ | VObject _ => true
  end.

(** [typeof v === 'string'] *)
Definition is_string (v : value) : bool :=
  match v with VString _ => true | _ => false end.

(** [`${v}`] *)
Definition to_string (v : value) : string :=
  match v with
  | VUndefined => "undefined"
  | VNull => "null"
  | VBool true => "true"
  | VBool false => "false"
  | VNumber z => pretty z
  | VNaN => "NaN"
  | VString s => s
  | VUrl u => href u
  | VObject _ => "[object Object]"
  end.

(** ** Strings *)

(** The upper-case letters among the code units below 256: A-Z
    (U+0041 to U+005A) and the Latin-1 letters U+00C0 to U+00DE without
    the multiplication sign U+00D7. *)
Definition is_upper_unit (n : nat) : bool :=
  ((65 <=? n) && (n <=? 90)
   || (192 <=? n) && (n <=? 222) && negb (n =? 215))%nat.

(** [c.toLowerCase()] on one code unit below 256: Unicode maps each of
    the upper-case letters to the code unit 32 above it and leaves every
    other code unit of that range as it is. *)
Definition lower_unit (c : ascii) : ascii :=
  let n := nat_of_ascii c in
  if is_upper_unit n then ascii_of_nat (n + 32) else c.

(** [s.toLowerCase()] *)
Fixpoint toLowerCase (s : string) : string :=
  match s with
  | EmptyString => EmptyString
  | String c s' => String (lower_unit c) (toLowerCase s')
  end.

(** [s.charCodeAt(i)]; [None] is the [NaN] of an index out of range. *)
Definition charCodeAt (s : string) (i : nat) : option nat :=
  nat_of_ascii <$> String.get i s.

(** [s.indexOf(t)]: the first position of [t] in [s], or -1. *)
Definition indexOf (s t : string) : Z :=
  match String.index 0 t s with
  | Some i => Z.of_nat i
  | None => -1
  end.

(** [l.includes(x)] on an array of strings. *)
Definition includes (l : list string) (x : string) : bool :=
  existsb (String.eqb x) l.

(** [l.includes(x)] on an array of arbitrary values (SameValueZero). *)
Definition includes_value (l : list value) (x : value) : bool :=
  existsb (fun y => bool_decide (y = x)) l.

(** ** The document tree *)

(** An [Element]: its [tagName], what [getAttribute('is')] returns
    ([None] for [null]) and its [children]. *)
#[local] Unset Elimination Schemes.
Inductive Element : Type :=
| Elem (el_tagName : string) (el_is : option string) (el_children : list Element).
#[local] Set Elimination Schemes.

Definition el_tagName (e : Element) : string :=
  match e with Elem t _ _ => t end.
Definition el_is (e : Element) : option string :=
  match e with Elem _ i _ => i end.
Definition el_children (e : Element) : list Element :=
  match e with Elem _ _ cs => cs end.

(** A node: an element, or one of the kinds that are no element.  A
    document and a shadow root (a document fragment) have child elements
    but neither a [tagName] nor attributes. *)
Inductive Node : Type :=
| ElementNode (e : Element)
| TextNode (data : string)
| CommentNode (data : string)
| DocumentNode (children : list Element)
| ShadowRootNode (children : list Element).

Definition ELEMENT_NODE : Z := 1.

Definition nodeType (n : Node) : Z :=
  match n with
  | ElementNode _ => 1
  | TextNode _ => 3
  | CommentNode _ => 8
  | DocumentNode _ => 9
  | ShadowRootNode _ => 11
  end.

(** ** [#resolveNames] *)

(** The typedef [ElementNames]; [isAttr] is an optional property. *)
Record ElementNames : Type := mkNames {
  elementName : string;
  tagName : string;
  isAttr : option string
}.

Definition resolveNames (element : Element) : ElementNames :=
  let tagName := toLowerCase (el_tagName element) in
  let isAttr := el_is element in
  let names := {| elementName := tagName; tagName := tagName; isAttr := None |} in
  match isAttr with
  | Some isAttr =>
      let isAttr := toLowerCase isAttr in
      {| elementName := isAttr; tagName := tagName; isAttr := Some isAttr |}
  | None => names
  end.

(** ** [#isCustomElementName] *)

Definition A_CHAR : nat := nat_of_ascii "a".
Definition Z_CHAR : nat := nat_of_ascii "z".

Definition INVALID_CUSTOM_ELEMENT_NAMES : list string :=
  [ "annotation-xml"; "color-profile"; "font-face"; "font-face-src";
    "font-face-uri"; "font-face-format"; "font-face-name"; "missing-glyph" ].

(** [A_CHAR <= firstChar && firstChar <= Z_CHAR], false on [NaN]. *)
Definition between_a_z (firstChar : option nat) : bool :=
  match firstChar with
  | Some c => ((A_CHAR <=? c) && (c <=? Z_CHAR))%nat
  | None => false
  end.

Definition isCustomElementName (name : value) : bool :=
  match name with
  | VString name =>
      let firstChar := charCodeAt name 0 in
      between_a_z firstChar
      && (0 <? indexOf name "-")
      && negb (includes INVALID_CUSTOM_ELEMENT_NAMES name)
  | _ => false
  end.


(** ** Errors, promises and the recorded effects *)

Inductive ErrorKind : Type :=
| KError | KTypeError | KSyntaxError | KNotSupportedError.

(** What a [throw] or a rejection carries: an error object with its
    [message] and its [cause] option, or any other value. *)
#[local] Unset Elimination Schemes.
Inductive thrown : Type :=
| ThrownError (kind : ErrorKind) (message : string) (cause : option thrown)
| ThrownValue (v : value).
#[local] Set Elimination Schemes.

(** The outcome of a synchronous call. *)
Inductive completion (A : Type) : Type :=
| Normal (a : A)
| Throw (t : thrown).
Arguments Normal {A} a.
Arguments Throw {A} t.

(** What a loader hands over: a class, or a value that is not one
    ([LoadedValue VNull] is the explicit [null]). *)
Inductive loaded : Type :=
| LoadedClass (ctor : nat)
| LoadedValue (v : value).

(** The state a promise ends in; [Pending] is the promise that never
    settles.  Awaiting a value that is no promise is awaiting [Fulfilled]. *)
Inductive promise : Type :=
| Fulfilled (d : loaded)
| Rejected (t : thrown)
| Pending.

Inductive event : Type :=
| FilterCall (name : string)
| UrlResolverCall (name : string)
| LoaderCall (url : URL)
| ConsoleWarn (message : string)
| DefineCall (name : string) (ctor : loaded) (extends : option string)
| UnhandledRejection (reason : thrown).

(** A promise chain built by [#define] whose continuation has not run. *)
Record InFlight : Type := mkInFlight {
  job_names : ElementNames;
  job_load : promise
}.

(** What [MutationObserver.prototype.observe] was last called with. *)
Record Subscription : Type := mkSubscription {
  sub_target : Node;
  sub_attributeFilter : list string;
  sub_childList : bool;
  sub_subtree : bool
}.

Record World : Type := mkWorld {
  registry : gmap string nat;
  trace : list event;
  inflight : list InFlight;
  subscription : option Subscription
}.

Definition log (w : World) (evs : list event) : World :=
  {| registry := registry w; trace := trace w ++ evs;
     inflight := inflight w; subscription := subscription w |}.

(** ** The platform *)

(** The default export of a module: a class, a value that is neither a
    function nor a thenable, or a thenable (a promise, say) with the state
    it ends in. *)
Inductive export : Type :=
| ExportClass (ctor : nat)
| ExportValue (v : value)
| ExportThenable (p : promise).

(** How [import(url)] settles. *)
Inductive import_result : Type :=
| Imported (default : export)
| ImportFailed (t : thrown)
| ImportPending.

(** Modelled from the spec: the platform pieces the class consumes but does
    not contain.  [parseURL s] is [new URL(s, window.location)], [None] when
    the constructor throws; [dynamicImport u] is how [import(u)] settles;
    [iterator e] is [e[Symbol.iterator]]: what iterating the element
    yields, for the elements that have an iterator of their own (a form
    yields its controls, a select its options), and [None] for the elements
    that have none. *)
Record Platform : Type := mkPlatform {
  parseURL : string -> option URL;
  dynamicImport : URL -> import_result;
  iterator : Element -> option (list Element)
}.

(** The [TypeError] of a method call on [undefined], as
    [tagName.toLowerCase()] is on a node without [tagName]. *)
Definition TAGNAME_UNDEFINED : thrown :=
  ThrownError KTypeError "Cannot read properties of undefined (reading 'toLowerCase')" None.

(** The [TypeError] of [new URL] on a string it cannot parse. *)
Definition INVALID_URL : thrown := ThrownError KTypeError "Invalid URL" None.

(** Modelled from the spec: the global registry, section 3 and 6: lookup by
    name, define by name, and define fails if the name is already
    defined.  Only a class can be stored. *)
Definition customElements_get (reg : gmap string nat) (name : string) : option nat :=
  reg !! name.

Definition customElements_define (reg : gmap string nat) (name : string)
    (ctor : loaded) (extends : option string) : completion (gmap string nat) :=
  match ctor with
  | LoadedValue _ =>
      Throw (ThrownError KTypeError "parameter 2 is not of type 'Function'." None)
  | LoadedClass c =>
      match customElements_get reg name with
      | Some _ =>
          Throw (ThrownError KNotSupportedError
                   ("the name '" +:+ name +:+ "' has already been used with this registry") None)
      | None => Normal (<[name := c]> reg)
      end
  end.

(** ** The instance: its private fields and the constructor options *)

(** [#filter], [#urlResolver] and [#loader] once the constructor has
    normalised them.  [this_filter] is [None] for [null].  A resolver may
    throw; a loader may throw or return a promise.  The callbacks are
    functions of their argument: what they do beyond returning (throwing in
    the filter, defining an element themselves) is outside the model, and
    the properties below speak of the registry as the class itself leaves
    it. *)
Record Config : Type := mkConfig {
  this_filter : option (string -> value);
  this_urlResolver : string -> completion value;
  this_loader : URL -> completion promise
}.

(** The three properties of [CustomElementsLazyLoaderInit] as a caller can
    write them: a function, the collection the program accepts in its place,
    or any other value ([VUndefined] when the property is absent). *)
Inductive FilterInit : Type :=
| FilterFunction (f : string -> value)
| FilterArray (names : list value)
| FilterValue (v : value).

Inductive UrlResolverInit : Type :=
| UrlResolverFunction (f : string -> completion value)
| UrlResolverMap (table : gmap string value)
| UrlResolverValue (v : value).

Inductive LoaderInit : Type :=
| LoaderFunction (f : URL -> completion promise)
| LoaderValue (v : value).

Record ConstructorInit : Type := mkConstructorInit {
  init_filter : FilterInit;
  init_urlResolver : UrlResolverInit;
  init_loader : LoaderInit
}.

(** The [options] argument: an object with the three properties, or any
    other value (whose three properties are then [undefined]). *)
Inductive ConstructorOptions : Type :=
| OptionsObject (o : ConstructorInit)
| OptionsValue (v : value).

Definition filter_truthy (f : FilterInit) : bool :=
  match f with FilterValue v => truthy v | _ => true end.
Definition urlResolver_truthy (r : UrlResolverInit) : bool :=
  match r with UrlResolverValue v => truthy v | _ => true end.
Definition loader_truthy (l : LoaderInit) : bool :=
  match l with LoaderValue v => truthy v | _ => true end.

(** [Map.prototype.get] *)
Definition Map_get (table : gmap string value) (name : string) : value :=
  default VUndefined (table !! name).

Section Defaults.
Variable P : Platform.

(** [#resolveUrlDefault] *)
Definition resolveUrlDefault (name : string) : completion value :=
  match parseURL P ("/js/" +:+ name +:+ "-element.js") with
  | Some u => Normal (VUrl u)
  | None => Throw INVALID_URL
  end.

(** [!!module.default] *)
Definition export_truthy (d : export) : bool :=
  match d with
  | ExportValue v => truthy v
  | ExportClass _ | ExportThenable _ => true
  end.

(** [#loadDefault]; an [async] function, so it never throws: it rejects.
    What it returns resolves its promise, so a default export that is a
    thenable is adopted: the promise ends as the thenable does. *)
Definition loadDefault (url : URL) : completion promise :=
  Normal
    match dynamicImport P url with
    | Imported default =>
        if negb (export_truthy default)
        then Rejected (ThrownError KTypeError
               ("URL '" +:+ href url +:+ "' does not point do an ES-Module with default export.") None)
        else match default with
             | ExportClass c => Fulfilled (LoadedClass c)
             | ExportValue v => Fulfilled (LoadedValue v)
             | ExportThenable p => p
             end
    | ImportFailed t => Rejected t
    | ImportPending => Pending
    end.

Definition defaults : Config :=
  {| this_filter := None;
     this_loader := loadDefault;
     this_urlResolver := resolveUrlDefault |}.

(** [#resolveConstructorOptions] *)
Definition resolveConstructorOptions (options : ConstructorOptions)
    (defaults : Config) : completion Config :=
  match options with
  | OptionsValue _ =>
      (* falsy: [return { ...defaults }]; truthy: its three properties are
         [undefined], so every field takes its default *)
      Normal defaults
  | OptionsObject options =>
      let filter : completion (option (string -> value)) :=
        if negb (filter_truthy (init_filter options)) then Normal (this_filter defaults)
        else match init_filter options with
             | FilterFunction f => Normal (Some f)
             | FilterArray names =>
                 Normal (Some (fun name => VBool (includes_value names (VString name))))
             | FilterValue _ =>
                 Throw (ThrownError KTypeError
                   "Expecting provided filter to be type of function or string[]." None)
             end in
      let urlResolver : completion (string -> completion value) :=
        if negb (urlResolver_truthy (init_urlResolver options))
        then Normal (this_urlResolver defaults)
        else match init_urlResolver options with
             | UrlResolverFunction f => Normal f
             | UrlResolverMap table => Normal (fun name => Normal (Map_get table name))
             | UrlResolverValue _ =>
                 Throw (ThrownError KTypeError
                   "Expecting provided urlResolver to be type of function." None)
             end in
      let loader : completion (URL -> completion promise) :=
        if negb (loader_truthy (init_loader options)) then Normal (this_loader defaults)
        else match init_loader options with
             | LoaderFunction f => Normal f
             | LoaderValue _ =>
                 Throw (ThrownError KTypeError
                   "Expecting provided loader to be type of function." None)
             end in
      match filter with
      | Throw t => Throw t
      | Normal filter =>
          match urlResolver with
          | Throw t => Throw t
          | Normal urlResolver =>
              match loader with
              | Throw t => Throw t
              | Normal loader =>
                  Normal {| this_filter := filter;
                            this_urlResolver := urlResolver;
                            this_loader := loader |}
              end
          end
      end
  end.

(** The constructor, as far as it decides the private fields. *)
Definition constructor (options : ConstructorOptions) : completion Config :=
  resolveConstructorOptions options defaults.

End Defaults.

(** ** The methods of one instance *)

Section Instance.
Variable P : Platform.
Variable this : Config.

(** [#isRegistered] *)
Definition isRegistered (w : World) (name : value) : bool :=
  truthy name && bool_decide (is_Some (customElements_get (registry w) (to_string name))).

(** The first three conjuncts of [#shouldHandle]; the filter is only
    consulted when they hold. *)
Definition eligible (w : World) (name : value) : bool :=
  truthy name && isCustomElementName name && negb (isRegistered w name).

(** [#shouldHandle]: the verdict, and the world in which the filter has
    been called if the conjunction got that far. *)
Definition shouldHandle (name : value) (w : World) : bool * World :=
  if eligible w name then
    match this_filter this with
    | None => (true, w)
    | Some filter => (truthy (filter (to_string name)), log w [FilterCall (to_string name)])
    end
  else (false, w).

(** [#load] up to its [await]: the calls it makes, and the state of the
    promise it returns. *)
Definition load (elementName : string) : list event * promise :=
  match this_urlResolver this elementName with
  | Throw t => ([UrlResolverCall elementName], Rejected t)
  | Normal url =>
      let url : completion value :=
        match url with
        | VString s =>
            match parseURL P s with
            | Some u => Normal (VUrl u)
            | None =>
                Throw (ThrownError KSyntaxError
                  ("Cannot parse provided URL '" +:+ s +:+ "' for '" +:+ elementName +:+ "'.")
                  (Some INVALID_URL))
            end
        | _ => Normal url
        end in
      match url with
      | Throw t => ([UrlResolverCall elementName], Rejected t)
      | Normal (VUrl url) =>
          ([UrlResolverCall elementName; LoaderCall url],
           let wrap cause :=
             ThrownError KError
               ("Error loading constructor for custom-element '" +:+ elementName
                  +:+ "' from '" +:+ href url +:+ "'.") (Some cause) in
           match this_loader this url with
           | Throw t => Rejected (wrap t)
           | Normal (Fulfilled ctor) => Fulfilled ctor
           | Normal (Rejected t) => Rejected (wrap t)
           | Normal Pending => Pending
           end)
      | Normal _ =>
          ([UrlResolverCall elementName],
           Rejected (ThrownError KTypeError
             ("Configured CustomElementUrlResolver did not provide an valid URL for '"
                +:+ elementName +:+ "'.") None))
      end
  end.

(** [#define], the synchronous part: [#load] runs up to its [await] and the
    [then]/[catch] chain is left in flight. *)
Definition define (names : ElementNames) (w : World) : World :=
  let '(calls, p) := load (elementName names) in
  {| registry := registry w;
     trace := trace w ++ calls;
     inflight := inflight w ++ [ {| job_names := names; job_load := p |} ];
     subscription := subscription w |}.

(** [#onElementAdded] *)
Definition onElementAdded (element : Element) (w : World) : World :=
  let names := resolveNames element in
  let '(handle, w) := shouldHandle (VString (elementName names)) w in
  if negb handle then w else define names w.

(** [#onIsAttributeChanged] *)
Definition onIsAttributeChanged (element : Element) (w : World) : World :=
  let names := resolveNames element in
  let '(handle, w) := shouldHandle (VString (elementName names)) w in
  if negb handle then w else define names w.

(** The body of the [for ... of elements] loop of [#scan], for one
    [element]; the recursive call [this.#scan(child.children, true)] is the
    inner loop over [el_children child]. *)
Fixpoint scan_element (subtree : bool) (w : World) (element : Element) {struct element} : World :=
  let names := resolveNames element in
  let '(handle, w) := shouldHandle (VString (elementName names)) w in
  let w := if handle then define names w else w in
  if subtree then
    match element with
    | Elem _ _ children =>
        fold_left
          (fun w child =>
             let childNames := resolveNames child in
             let '(handle, w) := shouldHandle (VString (elementName childNames)) w in
             let w := if handle then define childNames w else w in
             match child with
             | Elem _ _ grandchildren => fold_left (scan_element true) grandchildren w
             end)
          children w
    end
  else w.

(** The argument of [#scan]: an element, as [observe] passes its target,
    or a collection of elements, as the recursive call passes
    [child.children]. *)
Inductive ScanTarget : Type :=
| OneElement (e : Element)
| Elements (l : list Element).

(** [#scan].  The test [!elements[Symbol.iterator]] wraps an element that
    has no iterator; an element that has one is iterated like a
    collection. *)
Definition scan (elements : ScanTarget) (subtree : bool) (w : World) : World :=
  let elements :=
    match elements with
    | OneElement e =>
        match iterator P e with
        | None => [e]
        | Some yielded => yielded
        end
    | Elements l => l
    end in
  fold_left (scan_element subtree) elements w.

End Instance.

(** ** The asynchronous part of [#define] *)

(** The error the [catch] callback of [#define] throws; nothing handles the
    promise it rejects. *)
Definition defining_error (names : ElementNames) (cause : thrown) : thrown :=
  ThrownError KError ("Error defining element '" +:+ elementName names +:+ "'.") (Some cause).

(** The [then] and [catch] callbacks of [#define], run on the promise
    [#load] returned once it has settled; a pending promise runs neither. *)
Definition define_continuation (job : InFlight) (w : World) : World :=
  let names := job_names job in
  match job_load job with
  | Pending => w
  | Rejected error => log w [UnhandledRejection (defining_error names error)]
  | Fulfilled ctor =>
      let options : option string :=
        match isAttr names with
        | Some _ => Some (tagName names)
        | None => None
        end in
      match ctor with
      | LoadedValue VNull =>
          log w [ConsoleWarn ("Custom-Element constructor for '" +:+ elementName names
                                +:+ "' is null, skipping definition!")]
      | _ =>
          let w := log w [DefineCall (elementName names) ctor options] in
          match customElements_define (registry w) (elementName names) ctor options with
          | Normal reg =>
              {| registry := reg; trace := trace w;
                 inflight := inflight w; subscription := subscription w |}
          | Throw error => log w [UnhandledRejection (defining_error names error)]
          end
      end
  end.

Definition is_pending (job : InFlight) : bool :=
  match job_load job with Pending => true | _ => false end.

(** The microtask queue run to its end: every chain in flight runs its
    continuation, in the order the chains were created; the chains whose
    loader never settles stay in flight. *)
Definition drain (w : World) : World :=
  let w' := fold_left (fun w job => define_continuation job w) (inflight w) w in
  {| registry := registry w'; trace := trace w';
     inflight := List.filter is_pending (inflight w);
     subscription := subscription w' |}.

(** ** [observe] and the mutation callback *)

(** [CustomElementsObserveInit]: the two properties as values,
    [VUndefined] when absent. *)
Record ObserveInit : Type := mkObserveInit {
  init_scan : value;
  init_subtree : value
}.

Inductive ObserveOptions : Type :=
| ObserveObject (o : ObserveInit)
| ObserveValue (v : value).

Record ResolvedObserveOptions : Type := mkResolvedObserveOptions {
  opt_scan : bool;
  opt_subtree : bool
}.

(** [#resolveObserveOptions] *)
Definition resolveObserveOptions (options : ObserveOptions)
    (defaults : ResolvedObserveOptions) : ResolvedObserveOptions :=
  match options with
  | ObserveValue _ =>
      (* falsy: the defaults; truthy: both properties are [undefined] *)
      defaults
  | ObserveObject options =>
      {| opt_scan :=
           if negb (bool_decide (init_scan options = VUndefined))
           then truthy (init_scan options) else opt_scan defaults;
         opt_subtree :=
           if negb (bool_decide (init_subtree options = VUndefined))
           then truthy (init_subtree options) else opt_subtree defaults |}
  end.

Inductive MutationType : Type :=
| attributes | childList | characterData.

Record MutationRecord : Type := mkMutationRecord {
  type : MutationType;
  target : Element;
  addedNodes : list Node
}.

Section Observer.
Variable P : Platform.
Variable this : Config.

(** [observe] *)
Definition observe (target : Element) (options : ObserveOptions) (w : World) : World :=
  let options := resolveObserveOptions options {| opt_scan := true; opt_subtree := true |} in
  let w :=
    {| registry := registry w; trace := trace w; inflight := inflight w;
       subscription :=
         Some {| sub_target := ElementNode target; sub_attributeFilter := ["is"];
                 sub_childList := opt_subtree options;
                 sub_subtree := opt_subtree options |} |} in
  if opt_scan options then scan P this (OneElement target) (opt_subtree options) w else w.

(** [observe] on any node: the world it leaves, and the exception it
    throws, if it throws.  On an element it is [observe] above.  A node that
    is no element is subscribed to like any other; it has no iterator, so
    [#scan] wraps it, and no [tagName], so [#resolveNames] throws at
    [tagName.toLowerCase()] before the gate is reached. *)
Definition observe_node (target : Node) (options : ObserveOptions) (w : World)
    : World * option thrown :=
  match target with
  | ElementNode e => (observe e options w, None)
  | _ =>
      let options := resolveObserveOptions options {| opt_scan := true; opt_subtree := true |} in
      let w :=
        {| registry := registry w; trace := trace w; inflight := inflight w;
           subscription :=
             Some {| sub_target := target; sub_attributeFilter := ["is"];
                     sub_childList := opt_subtree options;
                     sub_subtree := opt_subtree options |} |} in
      if opt_scan options then (w, Some TAGNAME_UNDEFINED) else (w, None)
  end.

(** The loop body of [mutationCallback] for one record. *)
Definition mutationCallback_record (w : World) (record : MutationRecord) : World :=
  match type record with
  | attributes => onIsAttributeChanged P this (target record) w
  | _ =>
      fold_left
        (fun w node =>
           if bool_decide (nodeType node = ELEMENT_NODE)
           then match node with
                | ElementNode e => onElementAdded P this e w
                | _ => w
                end
           else w)
        (addedNodes record) w
  end.

(** [mutationCallback] *)
Definition mutationCallback (records : list MutationRecord) (w : World) : World :=
  fold_left mutationCallback_record records w.

End Observer.

(** ** Vocabulary of the properties *)

(** Document order: an element, then the subtrees of its children. *)
Fixpoint preorder (e : Element) : list Element :=
  match e with
  | Elem _ _ children => e :: flat_map preorder children
  end.

(** The name an element is handled under. *)
Definition handled_name (e : Element) : string :=
  elementName (resolveNames e).

(** The names the filter was called with, in order. *)
Definition filter_calls (t : list event) : list string :=
  omap (fun ev => match ev with FilterCall n => Some n | _ => None end) t.

(** The elements a batch of records reports, in order: the target of an
    [attributes] record, the added nodes of element type of any other. *)
Inductive MutationEvent : Type :=
| ElementAdded (e : Element)
| IsAttributeChanged (e : Element).

Definition event_element (ev : MutationEvent) : Element :=
  match ev with ElementAdded e | IsAttributeChanged e => e end.

Definition added_elements (nodes : list Node) : list Element :=
  omap (fun n => match n with ElementNode e => Some e | _ => None end) nodes.

Definition record_events (r : MutationRecord) : list MutationEvent :=
  match type r with
  | attributes => [IsAttributeChanged (target r)]
  | _ => ElementAdded <$> added_elements (addedNodes r)
  end.

Definition dispatch (P : Platform) (this : Config) (w : World) (ev : MutationEvent) : World :=
  match ev with
  | ElementAdded e => onElementAdded P this e w
  | IsAttributeChanged e => onIsAttributeChanged P this e w
  end.

(** The element without its descendants. *)
Definition childless (e : Element) : Element :=
  Elem (el_tagName e) (el_is e) [].

(** [sub] occurs in [s]. *)
Fixpoint occurs_in (sub s : string) : bool :=
  String.prefix sub s
  || match s with
     | EmptyString => false
     | String _ s' => occurs_in sub s'
     end.

(** An error carries a text when its message, or the message of an error
    on its chain of causes, contains it. *)
Fixpoint carries (t : thrown) (text : string) : bool :=
  match t with
  | ThrownError _ message cause =>
      occurs_in text message
      || match cause with
         | Some c => carries c text
         | None => false
         end
  | ThrownValue _ => false
  end.

Definition error_kind (t : thrown) : option ErrorKind :=
  match t with
  | ThrownError k _ _ => Some k
  | ThrownValue _ => None
  end.

Definition error_cause (t : thrown) : option thrown :=
  match t with
  | ThrownError _ _ c => c
  | ThrownValue _ => None
  end.

(** The rejections nobody handled, in order. *)
Definition unhandled (t : list event) : list thrown :=
  omap (fun ev => match ev with UnhandledRejection r => Some r | _ => None end) t.

(** The calls of [customElements.define], in order. *)
Definition define_calls (t : list event) : list (string * loaded * option string) :=
  omap (fun ev => match ev with DefineCall n c x => Some (n, c, x) | _ => None end) t.

(** ** A concrete platform and concrete instances *)

(** The elements below an element, in document order. *)
Definition descendants (e : Element) : list Element :=
  flat_map preorder (el_children e).

Definition has_tag (tags : list string) (e : Element) : bool :=
  includes tags (toLowerCase (el_tagName e)).

(** The iterators of HTML elements: a form yields the listed elements
    below it, a select the options below it; no other element has one. *)
Definition html_iterator (e : Element) : option (list Element) :=
  if has_tag ["form"] e
  then Some (List.filter
               (has_tag ["button"; "fieldset"; "input"; "object"; "output"; "select"; "textarea"])
               (descendants e))
  else if has_tag ["select"] e
  then Some (List.filter (has_tag ["option"]) (descendants e))
  else None.

(** A document at [http://localhost/]: absolute [http:] URLs parse to
    themselves, other strings are paths, and a scheme without a host does
    not parse. *)
Definition localhost : Platform :=
  {| parseURL := fun s =>
       if String.eqb s "http://" then None
       else if String.prefix "http://" s then Some {| href := s |}
       else if String.prefix "/" s then Some {| href := "http://localhost" +:+ s |}
       else Some {| href := "http://localhost/" +:+ s |};
     dynamicImport := fun _ => ImportPending;
     iterator := html_iterator |}.

Definition empty_world : World :=
  {| registry := ∅; trace := []; inflight := []; subscription := None |}.

(** The loader of the tests: [() => new Promise(resolve => resolve(null))]. *)
Definition resolveNull : URL -> completion promise :=
  fun _ => Normal (Fulfilled (LoadedValue VNull)).

(** The instance of the scan tests: a filter that records and returns
    [undefined], the default resolver, [resolveNull]. *)
Definition recording_instance : Config :=
  {| this_filter := Some (fun _ => VUndefined);
     this_urlResolver := resolveUrlDefault localhost;
     this_loader := resolveNull |}.

(** [urlResolver = name => `${name}.js`] and a loader with one class per
    URL, as in the end-to-end test. *)
Definition js_instance : Config :=
  {| this_filter := None;
     this_urlResolver := fun name => Normal (VString (name +:+ ".js"));
     this_loader := fun u =>
       Normal (if String.eqb (href u) "http://localhost/x-element.js" then Fulfilled (LoadedClass 1)
               else if String.eqb (href u) "http://localhost/y-element.js" then Fulfilled (LoadedClass 2)
               else Rejected (ThrownValue VUndefined)) |}.

(** The two syntactic conditions of a custom name, as the contract words
    them. *)
Definition first_char_a_z (s : string) : Prop :=
  exists c, String.get 0 s = Some c /\ (97 <= nat_of_ascii c <= 122)%nat.

Definition hyphen_at_1_or_later (s : string) : Prop :=
  exists i, (1 <= i)%nat /\ String.get i s = Some "-"%char.

(** The visits of a list of elements, one after the other. *)
Definition visit_all (P : Platform) (this : Config) (l : list Element) (w : World) : World :=
  fold_left (fun w e => onElementAdded P this e w) l w.

(** The elements [#scan] starts from when it is given the target: the
    target, or what the target yields if it has an iterator. *)
Definition scan_roots (P : Platform) (target : Element) : list Element :=
  match iterator P target with
  | None => [target]
  | Some yielded => yielded
  end.

(** The elements an initial scan reaches under the resolved options. *)
Definition scanned (P : Platform) (target : Element) (o : ResolvedObserveOptions)
    : list Element :=
  if opt_scan o
  then (if opt_subtree o then flat_map preorder (scan_roots P target) else scan_roots P target)
  else [].

(** The pipeline runs started between two worlds. *)
Definition runs_started (w w' : World) : list InFlight :=
  drop (length (inflight w)) (inflight w').

(** The effects recorded between two worlds. *)
Definition effects_since (w w' : World) : list event :=
  drop (length (trace w)) (trace w').

(** The elements a batch of records reports, in order. *)
Definition reported_elements (records : list MutationRecord) : list Element :=
  event_element <$> flat_map record_events records.

(** The world in which [super.observe] has replaced the subscription. *)
Definition subscribed (target : Element) (o : ResolvedObserveOptions) (w : World) : World :=
  {| registry := registry w; trace := trace w; inflight := inflight w;
     subscription :=
       Some {| sub_target := ElementNode target; sub_attributeFilter := ["is"];
               sub_childList := opt_subtree o; sub_subtree := opt_subtree o |} |}.

(** A world in which [a-element] is already defined, as in the loading
    test. *)
Definition registered_world : World :=
  {| registry := {[ "a-element" := 0%nat ]}; trace := []; inflight := [];
     subscription := None |}.

(** The tree of the scan tests: valid, invalid and reserved names, and a
    nested [div]. *)
Definition test_scope : Element :=
  Elem "DIV" None
    [ Elem "X-ELEMENT" None [];
      Elem "DIV" (Some "is-x-element") [];
      Elem "XELEMENT" None [];
      Elem "DIV" (Some "1-invalid") [];
      Elem "ANNOTATION-XML" None [];
      Elem "COLOR-PROFILE" None [];
      Elem "FONT-FACE" None [];
      Elem "DIV" (Some "missing-glyph") [];
      Elem "DIV" None
        [ Elem "Y-ELEMENT" None [];
          Elem "DIV" (Some "is-y-element") [] ] ].

Definition scan_shallow : ObserveOptions :=
  ObserveObject {| init_scan := VBool true; init_subtree := VBool false |}.

Definition scan_deep : ObserveOptions :=
  ObserveObject {| init_scan := VBool true; init_subtree := VBool true |}.

(** Options with a resolver table that knows [x-element] only, and the
    instance the constructor makes of them. *)
Definition table_options : ConstructorOptions :=
  OptionsObject
    {| init_filter := FilterValue VUndefined;
       init_urlResolver :=
         UrlResolverMap {[ "x-element" := VString "/js/x-element-element.js" ]};
       init_loader := LoaderFunction resolveNull |}.

Definition table_instance : Config :=
  {| this_filter := None;
     this_urlResolver := fun name =>
       Normal (Map_get {[ "x-element" := VString "/js/x-element-element.js" ]} name);
     this_loader := resolveNull |}.

(** An instance whose resolver answers a string that is no URL. *)
Definition bad_url_instance : Config :=
  {| this_filter := None;
     this_urlResolver := fun _ => Normal (VString "http://");
     this_loader := resolveNull |}.

(** An instance whose loader rejects. *)
Definition rejecting_instance : Config :=
  {| this_filter := None;
     this_urlResolver := fun name => Normal (VString (name +:+ ".js"));
     this_loader := fun _ => Normal (Rejected (ThrownValue (VString "offline"))) |}.

(** The container of the end-to-end test. *)
Definition container : Element :=
  Elem "DIV" None [ Elem "X-ELEMENT" None []; Elem "DIV" (Some "y-element") [] ].

(** The shapes the constructor rejects: a truthy value that is neither
    a function nor the collection accepted in its place. *)
Definition bad_filter (f : FilterInit) : Prop :=
  exists v, f = FilterValue v /\ truthy v = true.
Definition bad_urlResolver (r : UrlResolverInit) : Prop :=
  exists v, r = UrlResolverValue v /\ truthy v = true.
Definition bad_loader (l : LoaderInit) : Prop :=
  exists v, l = LoaderValue v /\ truthy v = true.

(** Options whose three properties are falsy values of the wrong type:
    [{ filter: '', urlResolver: 0, loader: false }]. *)
Definition falsy_options : ConstructorOptions :=
  OptionsObject
    {| init_filter := FilterValue (VString "");
       init_urlResolver := UrlResolverValue (VNumber 0);
       init_loader := LoaderValue (VBool false) |}.

(** [{ filter: 'invalid' }], as in the constructor test. *)
Definition invalid_filter_options : ConstructorInit :=
  {| init_filter := FilterValue (VString "invalid");
     init_urlResolver := UrlResolverValue VUndefined;
     init_loader := LoaderValue VUndefined |}.

(** The verdict of the gate on an element, and the run a visit starts
    when the verdict is [true]. *)
Definition passes_gate (this : Config) (w : World) (e : Element) : bool :=
  fst (shouldHandle this (VString (handled_name e)) w).

Definition run_of (P : Platform) (this : Config) (e : Element) : InFlight :=
  {| job_names := resolveNames e; job_load := snd (load P this (handled_name e)) |}.

(** The [console.warn] texts, in order. *)
Definition warnings (t : list event) : list string :=
  omap (fun ev => match ev with ConsoleWarn m => Some m | _ => None end) t.

(** The URLs the loader was called with, in order. *)
Definition loader_calls (t : list event) : list URL :=
  omap (fun ev => match ev with LoaderCall u => Some u | _ => None end) t.

(** A [childList] record that adds the given nodes under [target]. *)
Definition added (target : Element) (nodes : list Node) : MutationRecord :=
  {| type := childList; target := target; addedNodes := nodes |}.

Definition is_element_node (n : Node) : bool :=
  match n with ElementNode _ => true | _ => false end.

(** An instance whose loader hands over class 7 for every URL. *)
Definition class_instance : Config :=
  {| this_filter := None;
     this_urlResolver := fun name => Normal (VString (name +:+ ".js"));
     this_loader := fun _ => Normal (Fulfilled (LoadedClass 7)) |}.

(** A platform whose [import()] yields a module without default export. *)
Definition no_default_export : Platform :=
  {| parseURL := parseURL localhost;
     dynamicImport := fun _ => Imported (ExportValue VUndefined);
     iterator := html_iterator |}.

(** A platform whose [import()] yields a module with
    [export default Promise.resolve(null)]. *)
Definition promised_null_export : Platform :=
  {| parseURL := parseURL localhost;
     dynamicImport := fun _ => Imported (ExportThenable (Fulfilled (LoadedValue VNull)));
     iterator := html_iterator |}.

(** [<form is="x-form"><input is="x-input"></form>] *)
Definition x_form : Element :=
  Elem "FORM" (Some "x-form") [ Elem "INPUT" (Some "x-input") [] ].

(** The effects of the synchronous part of a run: calls of the three
    callbacks. *)
Definition is_callback_call (ev : event) : bool :=
  match ev with
  | FilterCall _ | UrlResolverCall _ | LoaderCall _ => true
  | _ => false
  end.

(** [{ filter: 'invalid', loader: 'invalid' }]: two options of the wrong
    shape. *)
Definition two_invalid_options : ConstructorInit :=
  {| init_filter := FilterValue (VString "invalid");
     init_urlResolver := UrlResolverValue VUndefined;
     init_loader := LoaderValue (VString "invalid") |}.

(** [{ filter: ['x-element', 'y-element'], loader: resolveNull }], as in
    the filter test. *)
Definition array_filter_options : ConstructorInit :=
  {| init_filter := FilterArray [VString "x-element"; VString "y-element"];
     init_urlResolver := UrlResolverValue VUndefined;
     init_loader := LoaderFunction resolveNull |}.

(** * Properties *)

(** ** Strings and the name validator *)

Lemma toLowerCase_empty (s : string) : toLowerCase s = "" <-> s = "".
Proof. destruct s; simpl; split; congruence. Qed.

Lemma index_hyphen_cons (c : ascii) (s : string) :
  String.index 0 "-" (String c s) =
  if Ascii.eqb c "-" then Some 0%nat else S <$> String.index 0 "-" s.
Proof.
  cbn [String.index String.prefix].
  destruct (Ascii.ascii_dec "-" c) as [<-|Hc].
  - destruct s; reflexivity.
  - destruct (Ascii.eqb_spec c "-") as [->|_]; [congruence|].
    destruct (String.index 0 "-" s); reflexivity.
Qed.

Lemma hyphen_somewhere_dec (s : string) :
  (exists i, String.get i s = Some "-"%char) \/ (forall i, String.get i s <> Some "-"%char).
Proof.
  induction s as [|c s [[i Hi]|Hno]].
  - right. intros [|i]; discriminate.
  - left. exists (S i). exact Hi.
  - destruct (Ascii.ascii_dec c "-") as [->|Hc].
    + left. exists 0%nat. reflexivity.
    + right. intros [|i]; cbn [String.get]; [congruence | apply Hno].
Qed.

Lemma index_hyphen_none (s : string) :
  String.index 0 "-" s = None <-> forall i, String.get i s <> Some "-"%char.
Proof.
  induction s as [|c s IH].
  - split; [intros _ [|i]; discriminate | reflexivity].
  - rewrite index_hyphen_cons. destruct (Ascii.eqb_spec c "-") as [->|Hc].
    + split; [discriminate|]. intros H. exfalso. apply (H 0%nat). reflexivity.
    + destruct (String.index 0 "-" s) as [n|]; cbn [fmap option_fmap option_map].
      * split; [discriminate|]. intros H. exfalso.
        assert (Hn : Some n = None); [|discriminate].
        apply IH. intros i. apply (H (S i)).
      * split; [|reflexivity]. intros _ [|i]; cbn [String.get].
        -- congruence.
        -- apply IH. reflexivity.
Qed.

(** [name.indexOf('-') > 0] says that the first code unit is no hyphen and
    that a later one is. *)
Lemma indexOf_hyphen_pos (s : string) :
  (0 <? indexOf s "-") = true <->
  String.get 0 s <> Some "-"%char /\ hyphen_at_1_or_later s.
Proof.
  unfold indexOf, hyphen_at_1_or_later. destruct s as [|c s].
  - cbn. split; [discriminate|]. intros [_ [i [_ Hi]]]. destruct i; discriminate.
  - rewrite index_hyphen_cons. cbn [String.get].
    destruct (Ascii.eqb_spec c "-") as [->|Hc].
    + cbn. split; [discriminate | intros [H _]; congruence].
    + destruct (String.index 0 "-" s) as [n|] eqn:Hi; cbn [fmap option_fmap option_map].
      * split; [intros _ | intros _; apply Z.ltb_lt; lia].
        split; [congruence|].
        destruct (hyphen_somewhere_dec s) as [[i Hi']|Hno].
        -- exists (S i). split; [lia | exact Hi'].
        -- apply index_hyphen_none in Hno. congruence.
      * split; [intros H; apply Z.ltb_lt in H; lia|].
        intros [_ [[|i] [Hle Hi']]]; [lia|]. exfalso.
        exact (proj1 (index_hyphen_none s) Hi i Hi').
Qed.

Lemma between_a_z_spec (s : string) :
  between_a_z (charCodeAt s 0) = true <-> first_char_a_z s.
Proof.
  unfold first_char_a_z, charCodeAt, between_a_z.
  destruct (String.get 0 s) as [c|]; cbn [fmap option_fmap option_map].
  - change A_CHAR with 97%nat. change Z_CHAR with 122%nat.
    rewrite andb_true_iff, !Nat.leb_le. split.
    + intros H. exists c. split; [reflexivity | lia].
    + intros [c' [[= <-] H]]. lia.
  - split; [discriminate | intros [c [[=] _]]].
Qed.

Lemma includes_In (l : list string) (x : string) :
  includes l x = true <-> In x l.
Proof.
  unfold includes. rewrite existsb_exists. split.
  - intros [y [Hy Heq]]. apply String.eqb_eq in Heq. subst. exact Hy.
  - intros H. exists x. split; [exact H | apply String.eqb_refl].
Qed.

Lemma first_char_a_z_no_hyphen (s : string) :
  first_char_a_z s -> String.get 0 s <> Some "-"%char.
Proof.
  intros [c [Hc Hr]] H. rewrite Hc in H. injection H as ->.
  change (nat_of_ascii "-") with 45%nat in Hr. lia.
Qed.

Lemma isCustomElementName_iff (s : string) :
  isCustomElementName (VString s) = true <->
  first_char_a_z s /\ hyphen_at_1_or_later s /\ ~ In s INVALID_CUSTOM_ELEMENT_NAMES.
Proof.
  cbn [isCustomElementName].
  rewrite !andb_true_iff, negb_true_iff, between_a_z_spec, indexOf_hyphen_pos.
  rewrite <- not_true_iff_false, includes_In.
  split.
  - intros [[Ha [_ Hh]] Hd]. auto.
  - intros [Ha [Hh Hd]]. auto using first_char_a_z_no_hyphen.
Qed.

(** C5. The name validator [#isCustomElementName] is a total function to
    [bool].  It answers [false] on every value that is not a string and on
    the empty string, [false] on every string whose first code unit is not
    one of a-z, [false] on every string without a hyphen at index 1 or
    later, [false] on each of the eight reserved names, and [true] on every
    other string; so ["x-y"] is accepted and ["1-invalid"] and ["noHyphen"]
    are not. *)
Theorem isCustomElementName_contract :
  (forall v, is_string v = false -> isCustomElementName v = false)
  /\ isCustomElementName (VString "") = false
  /\ (forall s, ~ first_char_a_z s -> isCustomElementName (VString s) = false)
  /\ (forall s, ~ hyphen_at_1_or_later s -> isCustomElementName (VString s) = false)
  /\ (forall s,
        In s [ "annotation-xml"; "color-profile"; "font-face"; "font-face-src";
               "font-face-uri"; "font-face-format"; "font-face-name"; "missing-glyph" ] ->
        isCustomElementName (VString s) = false)
  /\ (forall s,
        first_char_a_z s -> hyphen_at_1_or_later s ->
        ~ In s [ "annotation-xml"; "color-profile"; "font-face"; "font-face-src";
                 "font-face-uri"; "font-face-format"; "font-face-name"; "missing-glyph" ] ->
        isCustomElementName (VString s) = true)
  /\ isCustomElementName (VString "x-y") = true
  /\ isCustomElementName (VString "1-invalid") = false
  /\ isCustomElementName (VString "noHyphen") = false.
Proof.
  assert (Hfalse : forall s,
    ~ (first_char_a_z s /\ hyphen_at_1_or_later s /\ ~ In s INVALID_CUSTOM_ELEMENT_NAMES) ->
    isCustomElementName (VString s) = false).
  { intros s H. apply not_true_iff_false. rewrite isCustomElementName_iff. exact H. }
  repeat split; try reflexivity.
  - intros v Hv. destruct v; try reflexivity. discriminate.
  - intros s H. apply Hfalse. tauto.
  - intros s H. apply Hfalse. tauto.
  - intros s H. apply Hfalse. intros (_ & _ & Hd). exact (Hd H).
  - intros s Ha Hh Hd. apply isCustomElementName_iff. auto.
Qed.

(** The witness of C5: ["my-h1"] meets the three conditions and is
    accepted. *)
Lemma isCustomElementName_contract_witness :
  first_char_a_z "my-h1" /\ hyphen_at_1_or_later "my-h1"
  /\ isCustomElementName (VString "my-h1") = true.
Proof.
  assert (Ha : first_char_a_z "my-h1").
  { exists "m"%char. split; [reflexivity |].
    change (nat_of_ascii "m") with 109%nat. lia. }
  assert (Hh : hyphen_at_1_or_later "my-h1").
  { exists 2%nat. split; [lia | reflexivity]. }
  split; [exact Ha | split; [exact Hh |]].
  apply (proj1 (proj2 (proj2 (proj2 (proj2 (proj2 isCustomElementName_contract))))));
    [exact Ha | exact Hh |].
  cbn. intros H. repeat (destruct H as [H|H]; [discriminate|]). exact H.
Defined.

(** ** Induction on the document tree *)

Lemma Element_ind (Q : Element -> Prop) :
  (forall t i cs, Forall Q cs -> Q (Elem t i cs)) ->
  forall e, Q e.
Proof.
  intros step. fix IH 1. intros [t i cs]. apply step.
  induction cs as [|c cs IHcs]; constructor; [apply IH | exact IHcs].
Qed.

Lemma fold_left_pointwise {A B : Type} (f g : A -> B -> A) (l : list B) (a : A) :
  (forall b x, In x l -> f b x = g b x) ->
  fold_left f l a = fold_left g l a.
Proof.
  revert a. induction l as [|x l IH]; intros a H; [reflexivity|].
  cbn [fold_left]. rewrite (H a x (or_introl eq_refl)).
  apply IH. intros b y Hy. apply H. right. exact Hy.
Qed.

Lemma fold_left_flat_map {A B C : Type} (f : A -> C -> A) (g : B -> list C)
    (l : list B) (a : A) :
  fold_left f (flat_map g l) a = fold_left (fun a b => fold_left f (g b) a) l a.
Proof.
  revert a. induction l as [|x l IH]; intros a; [reflexivity|].
  cbn [flat_map fold_left]. rewrite fold_left_app. apply IH.
Qed.

(** ** The gate and the synchronous part of a run *)

Section GateFacts.
Variable P : Platform.
Variable this : Config.

Lemma eligible_registry (w w' : World) (n : value) :
  registry w' = registry w -> eligible w' n = eligible w n.
Proof. intros H. unfold eligible, isRegistered. rewrite H. reflexivity. Qed.

Lemma shouldHandle_fst (n : value) (w : World) :
  fst (shouldHandle this n w) =
  eligible w n
  && match this_filter this with
     | None => true
     | Some f => truthy (f (to_string n))
     end.
Proof.
  unfold shouldHandle. destruct (eligible w n); [|reflexivity].
  destruct (this_filter this); reflexivity.
Qed.

Lemma shouldHandle_snd (n : value) (w : World) :
  snd (shouldHandle this n w) =
  log w (if eligible w n
         then match this_filter this with
              | None => []
              | Some _ => [FilterCall (to_string n)]
              end
         else []).
Proof.
  unfold shouldHandle, log. destruct w as [r t i s]. cbn.
  destruct (eligible _ n); [destruct (this_filter this)|]; cbn;
    rewrite ?app_nil_r; reflexivity.
Qed.

Lemma onIsAttributeChanged_onElementAdded (e : Element) (w : World) :
  onIsAttributeChanged P this e w = onElementAdded P this e w.
Proof. reflexivity. Qed.

(** What one visit does, by cases on the gate. *)
Lemma onElementAdded_cases (e : Element) (w : World) :
  onElementAdded P this e w =
  let n := handled_name e in
  if eligible w (VString n) then
    match this_filter this with
    | None => define P this (resolveNames e) w
    | Some f =>
        if truthy (f n)
        then define P this (resolveNames e) (log w [FilterCall n])
        else log w [FilterCall n]
    end
  else w.
Proof.
  unfold onElementAdded, handled_name, shouldHandle. cbn [to_string].
  destruct (eligible w _); [|reflexivity].
  destruct (this_filter this) as [f|]; [|reflexivity].
  cbn. destruct (truthy _); reflexivity.
Qed.

Lemma define_registry (names : ElementNames) (w : World) :
  registry (define P this names w) = registry w.
Proof. unfold define. destruct (load _ _ _). reflexivity. Qed.

Lemma define_inflight (names : ElementNames) (w : World) :
  inflight (define P this names w) =
  inflight w ++ [ {| job_names := names; job_load := snd (load P this (elementName names)) |} ].
Proof. unfold define. destruct (load _ _ _). reflexivity. Qed.

Lemma define_trace (names : ElementNames) (w : World) :
  trace (define P this names w) = trace w ++ fst (load P this (elementName names)).
Proof. unfold define. destruct (load _ _ _). reflexivity. Qed.

Lemma define_subscription (names : ElementNames) (w : World) :
  subscription (define P this names w) = subscription w.
Proof. unfold define. destruct (load _ _ _). reflexivity. Qed.

Lemma onElementAdded_registry (e : Element) (w : World) :
  registry (onElementAdded P this e w) = registry w.
Proof.
  rewrite onElementAdded_cases. cbn zeta.
  destruct (eligible w _); [|reflexivity].
  destruct (this_filter this) as [f|]; [destruct (truthy _)|];
    rewrite ?define_registry; reflexivity.
Qed.

(** [#scan] visits the element, then, with [subtree], each child followed
    by a scan of the child's children. *)
Lemma scan_element_unfold (subtree : bool) (w : World) (e : Element) :
  scan_element P this subtree w e =
  let w := onElementAdded P this e w in
  if subtree then
    fold_left
      (fun w child =>
         scan P this (Elements (el_children child)) true (onElementAdded P this child w))
      (el_children e) w
  else w.
Proof.
  assert (Hvisit : forall e w,
    (let '(handle, w0) := shouldHandle this (VString (elementName (resolveNames e))) w in
     if handle then define P this (resolveNames e) w0 else w0) = onElementAdded P this e w).
  { intros e0 w0. unfold onElementAdded. destruct (shouldHandle _ _ _) as [[] ?]; reflexivity. }
  destruct e as [t i cs]. cbn [scan_element el_children]. cbn zeta.
  rewrite <- (Hvisit (Elem t i cs) w).
  destruct (shouldHandle _ _ _) as [h w0]. destruct subtree; [|reflexivity].
  apply fold_left_pointwise. intros b [t' i' gs] _. cbn [el_children scan].
  rewrite <- (Hvisit (Elem t' i' gs) b).
  destruct (shouldHandle _ _ _) as [h' w1]. reflexivity.
Qed.

(** The scan of a subtree is the visit of its elements in document
    order. *)
Lemma scan_element_preorder (e : Element) :
  forall w,
    scan_element P this true w e
    = fold_left (fun w e => onElementAdded P this e w) (preorder e) w.
Proof.
  pose (Q := fun e => forall w,
    scan_element P this true w e
    = fold_left (fun w e => onElementAdded P this e w) (preorder e) w).
  enough (H : Q e /\ Forall Q (el_children e)) by exact (proj1 H).
  induction e as [t i cs IH] using Element_ind.
  assert (Hcs : Forall Q cs).
  { eapply Forall_impl; [exact IH|]. intros c Hc. exact (proj1 Hc). }
  split; [|exact Hcs].
  intros w. rewrite scan_element_unfold. cbn zeta. cbn [preorder el_children fold_left].
  rewrite fold_left_flat_map.
  apply fold_left_pointwise. intros b c Hc.
  rewrite Forall_forall in IH. destruct (IH c (proj2 (list_elem_of_In _ _) Hc)) as [_ Hgs].
  destruct c as [t' i' gs]. cbn [preorder el_children fold_left scan] in *.
  rewrite fold_left_flat_map.
  apply fold_left_pointwise. intros b' g Hg.
  rewrite Forall_forall in Hgs. apply (Hgs g). apply list_elem_of_In. exact Hg.
Qed.

Lemma scan_element_shallow (e : Element) (w : World) :
  scan_element P this false w e = onElementAdded P this e w.
Proof. rewrite scan_element_unfold. reflexivity. Qed.

End GateFacts.

(** ** Sequences of visits *)

Section VisitFacts.
Variable P : Platform.
Variable this : Config.

Lemma filter_calls_app (t1 t2 : list event) :
  filter_calls (t1 ++ t2) = filter_calls t1 ++ filter_calls t2.
Proof. apply omap_app. Qed.

Lemma load_no_filter_call (n : string) :
  filter_calls (fst (load P this n)) = [].
Proof.
  unfold load. destruct (this_urlResolver this n) as [v|t]; [|reflexivity].
  destruct v as [| | | | |s| |]; try reflexivity.
  - destruct (parseURL P s); reflexivity.
Qed.

Lemma eligible_unregistered (w : World) (s : string) :
  eligible w (VString s) = true ->
  customElements_get (registry w) s = None.
Proof.
  unfold eligible, isRegistered. cbn [to_string].
  rewrite !andb_true_iff, negb_true_iff, andb_false_iff.
  intros [[Ht _] [Hr|Hr]]; [congruence|].
  apply bool_decide_eq_false in Hr.
  destruct (customElements_get _ s); [|reflexivity].
  exfalso. apply Hr. eauto.
Qed.

(** One visit starts at most one run, and only under an eligible name. *)
Lemma onElementAdded_inflight (e : Element) (w : World) :
  exists jobs,
    inflight (onElementAdded P this e w) = inflight w ++ jobs
    /\ Forall (fun job => eligible w (VString (elementName (job_names job))) = true) jobs.
Proof.
  rewrite onElementAdded_cases. cbn zeta.
  destruct (eligible w _) eqn:He.
  - destruct (this_filter this) as [f|]; [destruct (truthy _)|].
    + eexists. rewrite define_inflight. split; [reflexivity|].
      constructor; [exact He | constructor].
    + exists []. rewrite app_nil_r. split; [reflexivity | constructor].
    + eexists. rewrite define_inflight. split; [reflexivity|].
      constructor; [exact He | constructor].
  - exists []. rewrite app_nil_r. split; [reflexivity | constructor].
Qed.

Lemma visit_all_registry (l : list Element) (w : World) :
  registry (visit_all P this l w) = registry w.
Proof.
  revert w. induction l as [|e l IH]; intros w; [reflexivity|].
  unfold visit_all in *. cbn [fold_left]. rewrite IH. apply onElementAdded_registry.
Qed.

Lemma visit_all_inflight (l : list Element) (w : World) :
  exists jobs,
    inflight (visit_all P this l w) = inflight w ++ jobs
    /\ Forall (fun job => eligible w (VString (elementName (job_names job))) = true) jobs.
Proof.
  revert w. induction l as [|e l IH]; intros w.
  - exists []. rewrite app_nil_r. split; [reflexivity | constructor].
  - unfold visit_all in *. cbn [fold_left].
    destruct (onElementAdded_inflight e w) as (j1 & H1 & F1).
    destruct (IH (onElementAdded P this e w)) as (j2 & H2 & F2).
    exists (j1 ++ j2). rewrite H2, H1, app_assoc. split; [reflexivity|].
    apply Forall_app. split; [exact F1|].
    eapply Forall_impl; [exact F2|]. intros job Hj.
    rewrite <- Hj. symmetry. apply eligible_registry, onElementAdded_registry.
Qed.

Lemma onElementAdded_filter_calls (f : string -> value) (e : Element) (w : World) :
  this_filter this = Some f ->
  filter_calls (trace (onElementAdded P this e w)) =
  filter_calls (trace w)
  ++ (if eligible w (VString (handled_name e)) then [handled_name e] else []).
Proof.
  intros Hf. rewrite onElementAdded_cases. cbn zeta. rewrite Hf.
  destruct (eligible w _); [|rewrite app_nil_r; reflexivity].
  destruct (truthy _).
  - rewrite define_trace, filter_calls_app, load_no_filter_call, app_nil_r.
    cbn [log trace]. apply filter_calls_app.
  - cbn [log trace]. apply filter_calls_app.
Qed.

Lemma visit_all_filter_calls (f : string -> value) (l : list Element) (w : World) :
  this_filter this = Some f ->
  filter_calls (trace (visit_all P this l w)) =
  filter_calls (trace w)
  ++ (handled_name <$> List.filter (fun e => eligible w (VString (handled_name e))) l).
Proof.
  intros Hf. revert w. induction l as [|e l IH]; intros w.
  - cbn. rewrite app_nil_r. reflexivity.
  - unfold visit_all in *. cbn [fold_left List.filter].
    rewrite IH, (onElementAdded_filter_calls f e w Hf), <- app_assoc. f_equal.
    assert (Hext : List.filter
              (fun e0 => eligible (onElementAdded P this e w) (VString (handled_name e0))) l
            = List.filter (fun e0 => eligible w (VString (handled_name e0))) l).
    { apply List.filter_ext. intros a. apply eligible_registry, onElementAdded_registry. }
    rewrite Hext. destruct (eligible w (VString (handled_name e))); reflexivity.
Qed.

(** [observe] subscribes and then visits the scanned elements. *)
Lemma observe_visit_all (target : Element) (options : ObserveOptions) (w : World) :
  let o := resolveObserveOptions options {| opt_scan := true; opt_subtree := true |} in
  observe P this target options w
  = visit_all P this (scanned P target o) (subscribed target o w).
Proof.
  cbn zeta. unfold observe, scanned. fold (subscribed target
    (resolveObserveOptions options {| opt_scan := true; opt_subtree := true |}) w).
  destruct (opt_scan _); [|reflexivity].
  unfold scan, visit_all. fold (scan_roots P target).
  destruct (opt_subtree _).
  - rewrite fold_left_flat_map. apply fold_left_pointwise.
    intros b e _. apply scan_element_preorder.
  - apply fold_left_pointwise. intros b e _. apply scan_element_shallow.
Qed.

(** The mutation callback visits the reported elements in order. *)
Lemma mutationCallback_visit_all (records : list MutationRecord) (w : World) :
  mutationCallback P this records w = visit_all P this (reported_elements records) w.
Proof.
  unfold mutationCallback, reported_elements, visit_all.
  revert w. induction records as [|r records IH]; intros w; [reflexivity|].
  cbn [fold_left flat_map]. rewrite IH, fmap_app, fold_left_app. f_equal.
  unfold mutationCallback_record, record_events.
  destruct (type r); try reflexivity;
    generalize (addedNodes r); intros nodes; revert w;
    induction nodes as [|n nodes IHn]; intros w; try reflexivity;
    destruct n; cbn; apply IHn.
Qed.

End VisitFacts.

(** ** Name resolution *)

(** C3. [#resolveNames] is a total function of the element alone (it
    reads no state and records no effect).  Its [tagName] is the element's
    tag name in lower case.  Without an [is] attribute [elementName] is
    that [tagName] and the [isAttr] property is absent; with one,
    [elementName] and [isAttr] are the attribute's value in lower case,
    whatever the tag is. *)
Theorem resolveNames_contract :
  (forall e, tagName (resolveNames e) = toLowerCase (el_tagName e))
  /\ (forall t cs,
        resolveNames (Elem t None cs)
        = {| elementName := toLowerCase t; tagName := toLowerCase t; isAttr := None |})
  /\ (forall t a cs,
        resolveNames (Elem t (Some a) cs)
        = {| elementName := toLowerCase a; tagName := toLowerCase t;
             isAttr := Some (toLowerCase a) |})
  /\ (forall t t' a cs cs',
        elementName (resolveNames (Elem t (Some a) cs))
        = elementName (resolveNames (Elem t' (Some a) cs')))
  /\ resolveNames (Elem "DIV" (Some "Y-Element") [])
     = {| elementName := "y-element"; tagName := "div"; isAttr := Some "y-element" |}.
Proof.
  repeat split.
  intros [t [a|] cs]; reflexivity.
Qed.

(** ** The gate *)

Lemma truthy_string (n : value) :
  truthy n = true -> isCustomElementName n = true ->
  exists s, n = VString s /\ s <> "".
Proof.
  destruct n; try discriminate. intros Ht _. exists s. split; [reflexivity|].
  intros ->. discriminate.
Qed.

Lemma shouldHandle_iff (this : Config) (w : World) (n : value) :
  fst (shouldHandle this n w) = true <->
  (exists s, n = VString s /\ s <> "")
  /\ isCustomElementName n = true
  /\ customElements_get (registry w) (to_string n) = None
  /\ (this_filter this = None
      \/ exists f, this_filter this = Some f /\ truthy (f (to_string n)) = true).
Proof.
  rewrite shouldHandle_fst. unfold eligible, isRegistered.
  rewrite !andb_true_iff, negb_true_iff. split.
  - intros [[[Ht Hc] Hr] Hf].
    destruct (truthy_string n Ht Hc) as [s [-> Hs]].
    split; [eauto|]. split; [exact Hc|]. split.
    + rewrite Ht in Hr. cbn [andb] in Hr. apply bool_decide_eq_false in Hr.
      destruct (customElements_get _ _); [|reflexivity]. exfalso. apply Hr. eauto.
    + destruct (this_filter this) as [f|]; [right; eauto | left; reflexivity].
  - intros ([s [-> Hs]] & Hc & Hr & Hf).
    assert (Ht : truthy (VString s) = true).
    { cbn. apply negb_true_iff, String.eqb_neq. exact Hs. }
    repeat split; [exact Ht | exact Hc | |].
    + rewrite Ht, Hr. cbn [andb]. apply bool_decide_eq_false. intros [x Hx]. discriminate.
    + destruct Hf as [->|[f [-> Hf]]]; [reflexivity | exact Hf].
Qed.

Lemma runs_started_app (w w' : World) (jobs : list InFlight) :
  inflight w' = inflight w ++ jobs -> runs_started w w' = jobs.
Proof. intros H. unfold runs_started. rewrite H. apply drop_app_length. Qed.

Lemma visit_all_runs_unregistered (P : Platform) (this : Config)
    (l : list Element) (w0 w : World) :
  registry w = registry w0 -> inflight w = inflight w0 ->
  Forall (fun job => customElements_get (registry w0) (elementName (job_names job)) = None)
    (runs_started w0 (visit_all P this l w)).
Proof.
  intros Hr Hi. destruct (visit_all_inflight P this l w) as (jobs & Hj & Hall).
  rewrite Hi in Hj. rewrite (runs_started_app _ _ _ Hj).
  eapply Forall_impl; [exact Hall|]. intros job He. rewrite <- Hr.
  apply eligible_unregistered. exact He.
Qed.

(** C1. [#shouldHandle] answers [true] exactly when the name is a
    non-empty string, is a valid custom element name, is not in the
    registry, and the filter, if there is one, answers a truthy value.  So
    for a name in the registry the answer is [false], and neither a batch
    of mutation records nor an [observe] call, however often they mention
    the name, starts a pipeline run for it. *)
Theorem shouldHandle_contract (P : Platform) (this : Config) (w : World) (n : value) :
  (fst (shouldHandle this n w) = true <->
     (exists s, n = VString s /\ s <> "")
     /\ isCustomElementName n = true
     /\ customElements_get (registry w) (to_string n) = None
     /\ (this_filter this = None
         \/ exists f, this_filter this = Some f /\ truthy (f (to_string n)) = true))
  /\ (is_Some (customElements_get (registry w) (to_string n)) ->
      fst (shouldHandle this n w) = false
      /\ (forall records,
            Forall (fun job => elementName (job_names job) <> to_string n)
              (runs_started w (mutationCallback P this records w)))
      /\ (forall target options,
            Forall (fun job => elementName (job_names job) <> to_string n)
              (runs_started w (observe P this target options w)))).
Proof.
  split; [apply shouldHandle_iff|].
  intros [c Hc].
  assert (Hne : forall jobs,
    Forall (fun job => customElements_get (registry w) (elementName (job_names job)) = None) jobs ->
    Forall (fun job => elementName (job_names job) <> to_string n) jobs).
  { intros jobs Hall. eapply Forall_impl; [exact Hall|].
    intros job Hjob Heq. cbn beta in Hjob. rewrite Heq in Hjob. congruence. }
  split; [|split].
  - apply not_true_iff_false. rewrite shouldHandle_iff.
    intros (_ & _ & Hr & _). congruence.
  - intros records. apply Hne. rewrite mutationCallback_visit_all.
    apply visit_all_runs_unregistered; reflexivity.
  - intros target options. apply Hne. rewrite observe_visit_all. cbn zeta.
    apply visit_all_runs_unregistered; reflexivity.
Qed.

(** The witness of C1: [a-element] is registered, and the gate refuses
    it. *)
Lemma shouldHandle_contract_witness :
  is_Some (customElements_get (registry registered_world) (to_string (VString "a-element")))
  /\ fst (shouldHandle js_instance (VString "a-element") registered_world) = false.
Proof.
  assert (H : is_Some (customElements_get (registry registered_world)
                         (to_string (VString "a-element")))).
  { exists 0%nat. reflexivity. }
  split; [exact H|].
  exact (proj1 (proj2 (shouldHandle_contract localhost js_instance registered_world
                         (VString "a-element")) H)).
Defined.

(** C10. An element whose [is] attribute is the empty string resolves to
    the empty [elementName]; the gate refuses the empty name, so the
    element's visit (from a mutation record or from a scan) leaves the world
    as it was, whatever its tag name: [<x-y>] alone starts a run where
    [<x-y is>] with the empty value starts none. *)
Theorem empty_is_attribute_not_handled
    (P : Platform) (this : Config) (w : World) (t : string) (cs : list Element) :
  elementName (resolveNames (Elem t (Some "") cs)) = ""
  /\ fst (shouldHandle this (VString "") w) = false
  /\ onElementAdded P this (Elem t (Some "") cs) w = w
  /\ onIsAttributeChanged P this (Elem t (Some "") cs) w = w
  /\ scan P this (Elements [Elem t (Some "") cs]) false w = w
  /\ runs_started empty_world
       (onElementAdded localhost js_instance (Elem "X-Y" None []) empty_world) <> []
  /\ runs_started empty_world
       (onElementAdded localhost js_instance (Elem "X-Y" (Some "") []) empty_world) = [].
Proof.
  assert (Hvisit : onElementAdded P this (Elem t (Some "") cs) w = w).
  { rewrite onElementAdded_cases. reflexivity. }
  split; [reflexivity|]. split; [reflexivity|]. split; [exact Hvisit|].
  split; [exact Hvisit|]. split; [|split].
  - unfold scan. cbn [fold_left]. rewrite scan_element_shallow. exact Hvisit.
  - vm_compute. discriminate.
  - reflexivity.
Qed.

(** ** The mutation callback *)

(** C9. A batch of mutation records is processed in the order delivered:
    the callback is the left-to-right run of the events of its records.  An
    [attributes] record yields one attribute-changed event for its target;
    any other record yields one element-added event per added node that is
    an element, and none for a text or comment node.  Each event is the
    resolve/gate/define step on that element alone: it is the same whatever
    the element's children are, and it starts at most one run. *)
Theorem mutationCallback_contract (P : Platform) (this : Config) :
  (forall records w,
     mutationCallback P this records w
     = fold_left (dispatch P this) (flat_map record_events records) w)
  /\ (forall r1 r2 w,
        mutationCallback P this (r1 ++ r2) w
        = mutationCallback P this r2 (mutationCallback P this r1 w))
  /\ (forall t nodes,
        record_events {| type := attributes; target := t; addedNodes := nodes |}
        = [IsAttributeChanged t])
  /\ (forall t nodes,
        record_events {| type := childList; target := t; addedNodes := nodes |}
        = ElementAdded <$> added_elements nodes)
  /\ (forall e nodes, added_elements (ElementNode e :: nodes) = e :: added_elements nodes)
  /\ (forall d nodes, added_elements (TextNode d :: nodes) = added_elements nodes)
  /\ (forall d nodes, added_elements (CommentNode d :: nodes) = added_elements nodes)
  /\ (forall ev w,
        dispatch P this w ev
        = (let names := resolveNames (event_element ev) in
           if fst (shouldHandle this (VString (elementName names)) w)
           then define P this names (snd (shouldHandle this (VString (elementName names)) w))
           else snd (shouldHandle this (VString (elementName names)) w)))
  /\ (forall e w,
        onElementAdded P this e w = onElementAdded P this (childless e) w
        /\ onIsAttributeChanged P this e w = onIsAttributeChanged P this (childless e) w)
  /\ (forall ev w, (length (runs_started w (dispatch P this w ev)) <= 1)%nat).
Proof.
  assert (Hfold : forall records w,
    mutationCallback P this records w
    = fold_left (dispatch P this) (flat_map record_events records) w).
  { intros records w. rewrite mutationCallback_visit_all.
    unfold visit_all, reported_elements.
    generalize (flat_map record_events records). intros evs. revert w.
    induction evs as [|ev evs IH]; intros w; [reflexivity|].
    cbn [fmap list_fmap fold_left]. rewrite <- IH. destruct ev; reflexivity. }
  split; [exact Hfold|].
  split; [intros r1 r2 w; rewrite !Hfold, flat_map_app, fold_left_app; reflexivity|].
  do 5 (split; [reflexivity|]).
  split; [|split]; [intros ev w | intros e w | intros ev w].
  - destruct ev as [e|e]; cbn [dispatch event_element];
      unfold onElementAdded, onIsAttributeChanged;
      destruct (shouldHandle _ _ _) as [[] ?]; reflexivity.
  - destruct e as [t [a|] cs]; split; reflexivity.
  - assert (H : exists e, dispatch P this w ev = onElementAdded P this e w).
    { destruct ev as [e|e]; exists e; reflexivity. }
    destruct H as [e ->]. rewrite onElementAdded_cases. cbn zeta.
    assert (Hdef : forall w0, inflight w0 = inflight w ->
      (length (runs_started w (define P this (resolveNames e) w0)) <= 1)%nat).
    { intros w0 H0. erewrite runs_started_app; [|rewrite define_inflight, H0; reflexivity].
      cbn. lia. }
    assert (Hsame : forall w0, inflight w0 = inflight w ->
      (length (runs_started w w0) <= 1)%nat).
    { intros w0 H0. erewrite (runs_started_app w w0 []); [cbn; lia|].
      rewrite app_nil_r. exact H0. }
    destruct (eligible w _); [|apply Hsame; reflexivity].
    destruct (this_filter this); [destruct (truthy _)|];
      [apply Hdef | apply Hsame | apply Hdef]; reflexivity.
Qed.

(** ** The initial scan *)

(** C2, as the code has it.  With a filter configured: [scan: false]
    records no effect at all.  For a target element that has no iterator of
    its own, [scan: true, subtree: false] calls the filter for the target
    if the target's name is eligible (a non-empty valid custom name not in
    the registry) and not at all otherwise, and [scan: true, subtree: true]
    calls it once for each eligible element of the target's tree, in
    document order, under the [is] name where there is one.  For every
    target the filter is called for the eligible ones among the scanned
    elements, in order; elements that are not eligible never reach it. *)
Theorem observe_filter_calls
    (P : Platform) (this : Config) (f : string -> value) (target : Element) (w : World) :
  this_filter this = Some f ->
  (forall sub,
     trace (observe P this target
              (ObserveObject {| init_scan := VBool false; init_subtree := sub |}) w)
     = trace w)
  /\ (iterator P target = None ->
        filter_calls (trace (observe P this target scan_shallow w))
        = filter_calls (trace w)
          ++ (if eligible w (VString (handled_name target)) then [handled_name target] else [])
        /\ filter_calls (trace (observe P this target scan_deep w))
           = filter_calls (trace w)
             ++ (handled_name <$>
                   List.filter (fun e => eligible w (VString (handled_name e)))
                     (preorder target)))
  /\ (forall options,
        filter_calls (trace (observe P this target options w))
        = filter_calls (trace w)
          ++ (handled_name <$>
                List.filter (fun e => eligible w (VString (handled_name e)))
                  (scanned P target
                     (resolveObserveOptions options
                        {| opt_scan := true; opt_subtree := true |}))))
  /\ preorder target = target :: flat_map preorder (el_children target).
Proof.
  intros Hf.
  assert (Hall : forall options,
    filter_calls (trace (observe P this target options w))
    = filter_calls (trace w)
      ++ (handled_name <$>
            List.filter (fun e => eligible w (VString (handled_name e)))
              (scanned P target
                 (resolveObserveOptions options {| opt_scan := true; opt_subtree := true |})))).
  { intros options. rewrite observe_visit_all. cbn zeta.
    rewrite (visit_all_filter_calls P this f _ _ Hf). reflexivity. }
  split; [|split; [|split]].
  - intros sub. reflexivity.
  - intros Hnone. rewrite !Hall.
    change (scanned P target (resolveObserveOptions scan_shallow _))
      with (scan_roots P target).
    change (scanned P target (resolveObserveOptions scan_deep _))
      with (flat_map preorder (scan_roots P target)).
    unfold scan_roots. rewrite Hnone. cbn [flat_map List.filter]. rewrite app_nil_r.
    split; [|reflexivity].
    destruct (eligible w _); reflexivity.
  - exact Hall.
  - destruct target; reflexivity.
Qed.

(** The witness of C2: the test tree is a [<div>], which has no iterator,
    and its deep scan calls the filter with the four eligible names, in
    document order. *)
Lemma observe_filter_calls_witness :
  this_filter recording_instance = Some (fun _ => VUndefined)
  /\ iterator localhost test_scope = None
  /\ filter_calls (trace (observe localhost recording_instance test_scope scan_deep empty_world))
     = ["x-element"; "is-x-element"; "y-element"; "is-y-element"].
Proof.
  split; [reflexivity|]. split; [reflexivity|].
  rewrite (proj2 (proj1 (proj2
    (observe_filter_calls localhost recording_instance (fun _ => VUndefined)
       test_scope empty_world eq_refl)) eq_refl)).
  reflexivity.
Defined.

(** The counterexample of C2.  A shallow scan of a childless [<div>]
    calls the filter not once but never, and the deep scan of the test tree
    calls it four times for twelve elements.  A form has an iterator: the
    shallow scan of [<form is="x-form">] calls the filter for its control
    and never for the form, whose name is eligible.  A document is no
    element: the scan throws before any filter call, after the
    subscription. *)
Lemma observe_filter_once_counterexample :
  filter_calls (trace (observe localhost recording_instance (Elem "DIV" None [])
                         scan_shallow empty_world))
  <> [handled_name (Elem "DIV" None [])]
  /\ filter_calls (trace (observe localhost recording_instance (Elem "DIV" None [])
                            scan_shallow empty_world)) = []
  /\ length (filter_calls (trace (observe localhost recording_instance test_scope
                                    scan_deep empty_world))) = 4%nat
  /\ length (preorder test_scope) = 12%nat
  /\ eligible empty_world (VString (handled_name x_form)) = true
  /\ filter_calls (trace (observe localhost recording_instance x_form
                            scan_shallow empty_world)) = ["x-input"]
  /\ snd (observe_node localhost recording_instance
            (DocumentNode [Elem "X-ELEMENT" None []]) scan_shallow empty_world)
     = Some TAGNAME_UNDEFINED
  /\ filter_calls (trace (fst (observe_node localhost recording_instance
                                 (DocumentNode [Elem "X-ELEMENT" None []]) scan_shallow
                                 empty_world))) = []
  /\ subscription (fst (observe_node localhost recording_instance
                          (DocumentNode [Elem "X-ELEMENT" None []]) scan_shallow empty_world))
     <> None.
Proof.
  split; [vm_compute; discriminate|].
  do 7 (split; [reflexivity|]). discriminate.
Qed.

(** ** The pipeline: [#load] and the continuation of [#define] *)

Lemma effects_since_app (w w' : World) (evs : list event) :
  trace w' = trace w ++ evs -> effects_since w w' = evs.
Proof. intros H. unfold effects_since. rewrite H. apply drop_app_length. Qed.

Lemma prefix_append (a b : string) : String.prefix a (a +:+ b) = true.
Proof.
  induction a as [|c a IH]; simpl.
  - destruct b; reflexivity.
  - destruct (Ascii.ascii_dec c c); [exact IH | congruence].
Qed.

Lemma occurs_in_here (text s : string) :
  String.prefix text s = true -> occurs_in text s = true.
Proof. intros H. destruct s; cbn [occurs_in]; rewrite H; reflexivity. Qed.

Lemma occurs_in_later (text : string) (c : ascii) (s : string) :
  occurs_in text s = true -> occurs_in text (String c s) = true.
Proof. intros H. cbn [occurs_in]. rewrite H. apply orb_true_r. Qed.

Lemma occurs_in_append_r (text a b : string) :
  occurs_in text b = true -> occurs_in text (a +:+ b) = true.
Proof.
  intros H. induction a as [|c a IH]; simpl; [exact H|].
  apply occurs_in_later, IH.
Qed.

Lemma occurs_in_append (text a b : string) :
  occurs_in text (a +:+ text +:+ b) = true.
Proof. apply occurs_in_append_r, occurs_in_here, prefix_append. Qed.

Lemma defining_error_carries (names : ElementNames) (cause : thrown) :
  carries (defining_error names cause) (elementName names) = true.
Proof.
  unfold defining_error. cbn [carries]. rewrite occurs_in_append. reflexivity.
Qed.

Section PipelineFacts.
Variable P : Platform.
Variable this : Config.

(** [#load] calls the resolver first, whatever follows. *)
Lemma load_calls_resolver (n : string) :
  exists rest, fst (load P this n) = UrlResolverCall n :: rest.
Proof.
  unfold load. destruct (this_urlResolver this n) as [v|t]; [|eexists; reflexivity].
  destruct v as [| | | | |s|u|]; try (eexists; reflexivity).
  destruct (parseURL P s); eexists; reflexivity.
Qed.

Lemma load_no_unhandled (n : string) : unhandled (fst (load P this n)) = [].
Proof.
  unfold load. destruct (this_urlResolver this n) as [v|t]; [|reflexivity].
  destruct v as [| | | | |s|u|]; try reflexivity.
  destruct (parseURL P s); reflexivity.
Qed.

(** The URL the resolver's answer stands for, when it stands for one. *)
Lemma load_loader_call (n : string) (u : URL) :
  In (LoaderCall u) (fst (load P this n)) ->
  snd (load P this n) =
  match this_loader this u with
  | Throw t =>
      Rejected (ThrownError KError
        ("Error loading constructor for custom-element '" +:+ n
           +:+ "' from '" +:+ href u +:+ "'.") (Some t))
  | Normal (Fulfilled ctor) => Fulfilled ctor
  | Normal (Rejected t) =>
      Rejected (ThrownError KError
        ("Error loading constructor for custom-element '" +:+ n
           +:+ "' from '" +:+ href u +:+ "'.") (Some t))
  | Normal Pending => Pending
  end.
Proof.
  unfold load. destruct (this_urlResolver this n) as [v|t].
  - destruct v as [| | | | |s|u'|]; cbn;
      try (intros [H|[]]; discriminate).
    + destruct (parseURL P s) as [u'|]; cbn.
      * intros [H|[H|[]]]; [discriminate|]. injection H as ->.
        destruct (this_loader this u) as [[]|]; reflexivity.
      * intros [H|[]]; discriminate.
    + intros [H|[H|[]]]; [discriminate|]. injection H as ->.
      destruct (this_loader this u) as [[]|]; reflexivity.
  - cbn. intros [H|[]]; discriminate.
Qed.

End PipelineFacts.

Lemma define_continuation_fulfilled (names : ElementNames) (ctor : loaded) (w : World) :
  ctor <> LoadedValue VNull ->
  define_continuation {| job_names := names; job_load := Fulfilled ctor |} w =
  let options := match isAttr names with Some _ => Some (tagName names) | None => None end in
  let w1 := log w [DefineCall (elementName names) ctor options] in
  match customElements_define (registry w) (elementName names) ctor options with
  | Normal reg =>
      {| registry := reg; trace := trace w1; inflight := inflight w;
         subscription := subscription w |}
  | Throw error => log w1 [UnhandledRejection (defining_error names error)]
  end.
Proof.
  intros Hc. unfold define_continuation. cbn [job_names job_load].
  destruct ctor as [c|v]; [reflexivity|].
  destruct v; try reflexivity. congruence.
Qed.

(** C4. When the continuation of [#define] receives an implementation
    that is not [null], it calls [customElements.define] once, with the
    [elementName], that implementation, and an [extends] option that is the
    [tagName] exactly when the [isAttr] property is present and is absent
    otherwise; a class under a name that is still free is then in the
    registry under that name, and nothing is rejected. *)
Theorem define_continuation_registers (names : ElementNames) (ctor : loaded) (w : World) :
  ctor <> LoadedValue VNull ->
  let w' := define_continuation {| job_names := names; job_load := Fulfilled ctor |} w in
  exists extends,
    define_calls (effects_since w w') = [(elementName names, ctor, extends)]
    /\ (extends = Some (tagName names) <-> isAttr names <> None)
    /\ (extends = None <-> isAttr names = None)
    /\ (forall c, ctor = LoadedClass c ->
          customElements_get (registry w) (elementName names) = None ->
          registry w' = <[elementName names := c]> (registry w)
          /\ unhandled (effects_since w w') = []).
Proof.
  intros Hc. cbn zeta. rewrite (define_continuation_fulfilled names ctor w Hc). cbn zeta.
  exists (match isAttr names with Some _ => Some (tagName names) | None => None end).
  split; [|split; [|split]].
  - destruct (customElements_define _ _ _ _).
    + erewrite effects_since_app; [|reflexivity]. reflexivity.
    + erewrite effects_since_app; [|cbn [log trace]; rewrite <- app_assoc; reflexivity].
      reflexivity.
  - destruct (isAttr names); split; congruence.
  - destruct (isAttr names); split; congruence.
  - intros c -> Hfree. cbn [customElements_define]. rewrite Hfree. cbn [registry].
    split; [reflexivity|].
    erewrite effects_since_app; [|reflexivity]. reflexivity.
Qed.

(** The witness of C4: the class loaded for [<div is="y-element">] is
    defined as [y-element] extending [div]. *)
Lemma define_continuation_registers_witness :
  LoadedClass 2 <> LoadedValue VNull
  /\ exists extends,
       define_calls (effects_since empty_world
         (define_continuation
            {| job_names := resolveNames (Elem "DIV" (Some "y-element") []);
               job_load := Fulfilled (LoadedClass 2) |} empty_world))
       = [("y-element", LoadedClass 2, extends)]
       /\ extends = Some "div".
Proof.
  split; [discriminate|].
  destruct (define_continuation_registers
              (resolveNames (Elem "DIV" (Some "y-element") [])) (LoadedClass 2) empty_world)
    as (extends & Hcalls & Hsome & _); [discriminate|].
  exists extends. split; [exact Hcalls|].
  apply Hsome. discriminate.
Defined.

(** The end-to-end run: the scan of the container and the completed loads
    define [x-element] as an autonomous element and [y-element] as an
    extension of [div]. *)
Example end_to_end :
  let w := drain (observe localhost js_instance container (ObserveValue VUndefined) empty_world) in
  define_calls (trace w)
  = [("x-element", LoadedClass 1, None); ("y-element", LoadedClass 2, Some "div")]
  /\ customElements_get (registry w) "x-element" = Some 1%nat
  /\ customElements_get (registry w) "y-element" = Some 2%nat
  /\ unhandled (trace w) = [].
Proof. vm_compute. repeat split. Qed.

Lemma define_calls_app (t1 t2 : list event) :
  define_calls (t1 ++ t2) = define_calls t1 ++ define_calls t2.
Proof. apply omap_app. Qed.

Lemma unhandled_app (t1 t2 : list event) :
  unhandled (t1 ++ t2) = unhandled t1 ++ unhandled t2.
Proof. apply omap_app. Qed.

Section RunFacts.
Variable P : Platform.
Variable this : Config.

Lemma load_no_define_call (n : string) : define_calls (fst (load P this n)) = [].
Proof.
  unfold load. destruct (this_urlResolver this n) as [v|t]; [|reflexivity].
  destruct v as [| | | | |s|u|]; try reflexivity.
  destruct (parseURL P s); reflexivity.
Qed.

(** A visit that passes the gate is a [#define] after the filter call, if
    there is a filter. *)
Lemma onElementAdded_handled (e : Element) (w : World) :
  fst (shouldHandle this (VString (handled_name e)) w) = true ->
  exists calls,
    onElementAdded P this e w = define P this (resolveNames e) (log w calls)
    /\ define_calls calls = [] /\ unhandled calls = [].
Proof.
  rewrite shouldHandle_fst, andb_true_iff. intros [He Hf].
  rewrite onElementAdded_cases. cbn zeta. rewrite He.
  destruct (this_filter this) as [f|].
  - cbn [to_string] in Hf. rewrite Hf. eexists. split; [reflexivity|]. split; reflexivity.
  - exists []. split; [|split; reflexivity].
    f_equal. destruct w. unfold log. cbn. rewrite app_nil_r. reflexivity.
Qed.

End RunFacts.

(** C7. When the gate passes for an element's name and the loader, called
    with the resolved URL, resolves to [null], the run started for the
    element ends in one [console.warn]: [customElements.define] is not
    called, the registry is as before, and no rejection is left
    unhandled. *)
Theorem null_constructor_skips
    (P : Platform) (this : Config) (e : Element) (u : URL) (w : World) :
  fst (shouldHandle this (VString (handled_name e)) w) = true ->
  In (LoaderCall u) (fst (load P this (handled_name e))) ->
  this_loader this u = Normal (Fulfilled (LoadedValue VNull)) ->
  let w1 := onElementAdded P this e w in
  let job := {| job_names := resolveNames e; job_load := Fulfilled (LoadedValue VNull) |} in
  runs_started w w1 = [job]
  /\ effects_since w1 (define_continuation job w1)
     = [ConsoleWarn ("Custom-Element constructor for '" +:+ handled_name e
                       +:+ "' is null, skipping definition!")]
  /\ registry (define_continuation job w1) = registry w
  /\ define_calls (effects_since w (define_continuation job w1)) = []
  /\ unhandled (effects_since w (define_continuation job w1)) = [].
Proof.
  intros Hgate Hcall Hnull. cbn zeta.
  destruct (onElementAdded_handled P this e w Hgate) as (calls & -> & Hd & Hu).
  assert (Hload : snd (load P this (elementName (resolveNames e)))
                  = Fulfilled (LoadedValue VNull)).
  { unfold handled_name in Hcall.
    rewrite (load_loader_call P this _ u Hcall), Hnull. reflexivity. }
  split; [|split; [|split; [|split]]].
  - apply runs_started_app. rewrite define_inflight, Hload. reflexivity.
  - apply effects_since_app. reflexivity.
  - cbn [define_continuation job_load job_names log registry].
    rewrite define_registry. reflexivity.
  - erewrite effects_since_app.
    2:{ cbn [define_continuation job_load job_names log trace].
        rewrite define_trace. cbn [log trace]. rewrite <- !app_assoc. reflexivity. }
    rewrite !define_calls_app, Hd, load_no_define_call. reflexivity.
  - erewrite effects_since_app.
    2:{ cbn [define_continuation job_load job_names log trace].
        rewrite define_trace. cbn [log trace]. rewrite <- !app_assoc. reflexivity. }
    rewrite !unhandled_app, Hu, load_no_unhandled. reflexivity.
Qed.

(** The witness of C7: [<x-element>] under the table instance, whose
    loader is [resolveNull]. *)
Lemma null_constructor_skips_witness :
  fst (shouldHandle table_instance (VString (handled_name (Elem "X-ELEMENT" None [])))
         empty_world) = true
  /\ In (LoaderCall {| href := "http://localhost/js/x-element-element.js" |})
        (fst (load localhost table_instance (handled_name (Elem "X-ELEMENT" None []))))
  /\ this_loader table_instance {| href := "http://localhost/js/x-element-element.js" |}
     = Normal (Fulfilled (LoadedValue VNull))
  /\ define_calls (effects_since empty_world
       (define_continuation
          {| job_names := resolveNames (Elem "X-ELEMENT" None []);
             job_load := Fulfilled (LoadedValue VNull) |}
          (onElementAdded localhost table_instance (Elem "X-ELEMENT" None []) empty_world)))
     = [].
Proof.
  assert (Hgate : fst (shouldHandle table_instance
                         (VString (handled_name (Elem "X-ELEMENT" None []))) empty_world) = true)
    by reflexivity.
  assert (Hcall : In (LoaderCall {| href := "http://localhost/js/x-element-element.js" |})
                     (fst (load localhost table_instance
                             (handled_name (Elem "X-ELEMENT" None [])))))
    by (vm_compute; right; left; reflexivity).
  split; [exact Hgate|]. split; [exact Hcall|]. split; [reflexivity|].
  exact (proj1 (proj2 (proj2 (proj2
    (null_constructor_skips localhost table_instance (Elem "X-ELEMENT" None [])
       {| href := "http://localhost/js/x-element-element.js" |} empty_world
       Hgate Hcall eq_refl))))).
Defined.

(** C6, as the code has it.  A run calls the resolver synchronously and
    surfaces nothing synchronously.  A string the platform cannot parse
    rejects [#load] with a [SyntaxError] whose message carries the name and
    the string; an answer that is neither a string nor a URL rejects it
    with a [TypeError] whose message carries the name; a loader that throws
    or rejects is wrapped into an [Error] that carries the name and the
    URL and has the loader's failure as its cause; an exception of the
    resolver rejects [#load] as it is.  Every such rejection leaves the
    continuation as one unhandled rejection that carries the name and has
    the rejection of [#load] as its cause. *)
Theorem load_failures_surface
    (P : Platform) (this : Config) (names : ElementNames) (w : World) :
  let n := elementName names in
  let w1 := define P this names w in
  let job := {| job_names := names; job_load := snd (load P this n) |} in
  (exists rest, effects_since w w1 = UrlResolverCall n :: rest)
  /\ unhandled (effects_since w w1) = []
  /\ runs_started w w1 = [job]
  /\ (forall s,
        this_urlResolver this n = Normal (VString s) -> parseURL P s = None ->
        exists msg,
          job_load job = Rejected (ThrownError KSyntaxError msg (Some INVALID_URL))
          /\ occurs_in n msg = true /\ occurs_in s msg = true)
  /\ (forall v,
        this_urlResolver this n = Normal v ->
        is_string v = false -> (forall u, v <> VUrl u) ->
        exists msg,
          job_load job = Rejected (ThrownError KTypeError msg None)
          /\ occurs_in n msg = true)
  /\ (forall u t,
        In (LoaderCall u) (fst (load P this n)) ->
        this_loader this u = Throw t \/ this_loader this u = Normal (Rejected t) ->
        exists msg,
          job_load job = Rejected (ThrownError KError msg (Some t))
          /\ occurs_in n msg = true /\ occurs_in (href u) msg = true)
  /\ (forall t, this_urlResolver this n = Throw t -> job_load job = Rejected t)
  /\ (forall t,
        job_load job = Rejected t ->
        effects_since w1 (define_continuation job w1)
        = [UnhandledRejection (defining_error names t)]
        /\ error_kind (defining_error names t) = Some KError
        /\ error_cause (defining_error names t) = Some t
        /\ carries (defining_error names t) n = true).
Proof.
  cbn zeta. split; [|split; [|split; [|split; [|split; [|split; [|split]]]]]].
  - destruct (load_calls_resolver P this (elementName names)) as [rest Hrest].
    exists rest. apply effects_since_app. rewrite define_trace, Hrest. reflexivity.
  - erewrite effects_since_app; [|apply define_trace]. apply load_no_unhandled.
  - apply runs_started_app, define_inflight.
  - intros s Hs Hp. cbn [job_load]. unfold load. rewrite Hs, Hp. cbn.
    eexists. split; [reflexivity|]. split.
    + apply occurs_in_append_r, occurs_in_append_r, occurs_in_append.
    + apply occurs_in_append.
  - intros v Hv Hstr Hurl. cbn [job_load]. unfold load. rewrite Hv.
    destruct v as [| | | | |s|u|]; try discriminate;
      try (eexists; split; [reflexivity | apply occurs_in_append]).
    exfalso. exact (Hurl u eq_refl).
  - intros u t Hcall Hfail. cbn [job_load].
    rewrite (load_loader_call P this _ u Hcall).
    assert (Hn : forall a b, occurs_in (elementName names)
              ("Error loading constructor for custom-element '" +:+ elementName names
                 +:+ a +:+ b) = true) by (intros; apply occurs_in_append).
    assert (Hu : occurs_in (href u)
              ("Error loading constructor for custom-element '" +:+ elementName names
                 +:+ "' from '" +:+ href u +:+ "'.") = true).
    { apply occurs_in_append_r, occurs_in_append_r, occurs_in_append. }
    destruct Hfail as [-> | ->]; eexists; (split; [reflexivity|]); split;
      solve [apply Hn | exact Hu].
  - intros t Ht. cbn [job_load]. unfold load. rewrite Ht. reflexivity.
  - intros t Ht. cbn [job_load] in Ht. split; [|split; [|split]]; try reflexivity.
    + apply effects_since_app. unfold define_continuation. cbn [job_load job_names].
      rewrite Ht. reflexivity.
    + apply defining_error_carries.
Qed.

(** The witness of C6: the string [http://] does not parse, and [#load]
    rejects with a [SyntaxError] that carries the name and the string. *)
Lemma load_failures_surface_witness :
  this_urlResolver bad_url_instance "x-y" = Normal (VString "http://")
  /\ parseURL localhost "http://" = None
  /\ exists msg,
       snd (load localhost bad_url_instance "x-y")
       = Rejected (ThrownError KSyntaxError msg (Some INVALID_URL))
       /\ occurs_in "x-y" msg = true /\ occurs_in "http://" msg = true.
Proof.
  split; [reflexivity|]. split; [reflexivity|].
  exact (proj1 (proj2 (proj2 (proj2
    (load_failures_surface localhost bad_url_instance
       (resolveNames (Elem "X-Y" None [])) empty_world)))) "http://" eq_refl eq_refl).
Defined.

(** The counterexample of C6: the table does not know [y-element], the
    resolver answers [undefined], and the one rejection that surfaces
    carries the name but nothing of the resolver's answer: there is no URL
    in it. *)
Lemma wrong_type_carries_no_url_counterexample :
  this_urlResolver table_instance "y-element" = Normal VUndefined
  /\ unhandled (trace (drain (onElementAdded localhost table_instance
                                (Elem "Y-ELEMENT" None []) empty_world)))
     = [ ThrownError KError "Error defining element 'y-element'."
           (Some (ThrownError KTypeError
              "Configured CustomElementUrlResolver did not provide an valid URL for 'y-element'."
              None)) ]
  /\ Forall (fun t => carries t "y-element" = true /\ carries t (to_string VUndefined) = false)
       (unhandled (trace (drain (onElementAdded localhost table_instance
                                   (Elem "Y-ELEMENT" None []) empty_world)))).
Proof.
  split; [reflexivity|]. split; [reflexivity|].
  constructor; [split; reflexivity | constructor].
Qed.

(** ** The constructor *)

Lemma includes_value_In (l : list value) (x : value) :
  includes_value l x = true <-> In x l.
Proof.
  unfold includes_value. rewrite existsb_exists. split.
  - intros [y [Hy Heq]]. apply bool_decide_eq_true in Heq. subst. exact Hy.
  - intros H. exists x. split; [exact H | apply bool_decide_eq_true; reflexivity].
Qed.

(** C8, as the code has it.  Construction throws a [TypeError] exactly
    when one of the three options is a truthy value of the wrong shape (a
    filter that is neither a function nor an array, a resolver that is
    neither a function nor a [Map], a loader that is no function); a falsy
    value counts as absent and the option takes its default.  When
    construction succeeds, a filter given as
    an array is the membership test on that array, and a resolver given as
    a [Map] is its lookup, [undefined] on a name the table does not have. *)
Theorem constructor_contract (P : Platform) (o : ConstructorInit) :
  ((bad_filter (init_filter o) \/ bad_urlResolver (init_urlResolver o)
    \/ bad_loader (init_loader o))
   <-> exists msg, constructor P (OptionsObject o) = Throw (ThrownError KTypeError msg None))
  /\ ((exists cfg, constructor P (OptionsObject o) = Normal cfg)
      \/ (exists t, constructor P (OptionsObject o) = Throw t))
  /\ (forall cfg,
        constructor P (OptionsObject o) = Normal cfg ->
        (forall names, init_filter o = FilterArray names ->
           exists f, this_filter cfg = Some f
                     /\ forall name, truthy (f name) = true <-> In (VString name) names)
        /\ (forall table, init_urlResolver o = UrlResolverMap table ->
              forall name,
                this_urlResolver cfg name
                = Normal (match table !! name with Some v => v | None => VUndefined end))
        /\ (forall f, init_filter o = FilterFunction f -> this_filter cfg = Some f)
        /\ (forall f, init_urlResolver o = UrlResolverFunction f -> this_urlResolver cfg = f)
        /\ (forall f, init_loader o = LoaderFunction f -> this_loader cfg = f)
        /\ (forall v, init_filter o = FilterValue v -> this_filter cfg = None)
        /\ (forall v, init_urlResolver o = UrlResolverValue v ->
              this_urlResolver cfg = resolveUrlDefault P)
        /\ (forall v, init_loader o = LoaderValue v -> this_loader cfg = loadDefault P)).
Proof.
  destruct o as [fi ui li]. unfold constructor, resolveConstructorOptions.
  cbn [init_filter init_urlResolver init_loader].
  unfold bad_filter, bad_urlResolver, bad_loader.
  destruct fi as [ff|fl|fv]; cbn [filter_truthy negb];
    [ | | destruct (truthy fv) eqn:Hfv; cbn [negb] ];
  (destruct ui as [uf|ut|uv]; cbn [urlResolver_truthy negb];
    [ | | destruct (truthy uv) eqn:Huv; cbn [negb] ]);
  (destruct li as [lf|lv]; cbn [loader_truthy negb];
    [ | destruct (truthy lv) eqn:Hlv; cbn [negb] ]);
  (split; [split|split]);
  try (intros _; eexists; reflexivity);
  try (left; eexists; reflexivity);
  try (right; eexists; reflexivity);
  try (intros [msg Hmsg]; discriminate Hmsg);
  try (intros [[v [[=] Hv]]|[[v [[=] Hv]]|[v [[=] Hv]]]]; subst; congruence);
  try (intros cfg [=]; subst cfg; cbn;
       repeat split; try discriminate; try congruence);
  try (intros cfg Hcfg; discriminate Hcfg);
  try (intros _; first [ left; eexists; split; [reflexivity | assumption]
                       | right; left; eexists; split; [reflexivity | assumption]
                       | right; right; eexists; split; [reflexivity | assumption] ]).
  all: try (intros names0 [= <-]; eexists; split; [reflexivity|];
            intros name; cbn [truthy]; apply includes_value_In).
  all: try (intros table0 [= <-] name; unfold Map_get;
            destruct (ut !! name); reflexivity).
Qed.

(** The witness of C8: [{ filter: 'invalid' }] is a truthy filter of the
    wrong shape, and construction throws a [TypeError]. *)
Lemma constructor_contract_witness :
  bad_filter (init_filter invalid_filter_options)
  /\ exists msg,
       constructor localhost (OptionsObject invalid_filter_options)
       = Throw (ThrownError KTypeError msg None).
Proof.
  assert (H : bad_filter (init_filter invalid_filter_options)).
  { exists (VString "invalid"). split; reflexivity. }
  split; [exact H|].
  exact (proj1 (proj1 (constructor_contract localhost invalid_filter_options))
           (or_introl H)).
Defined.

(** The counterexample of C8: an empty string as filter, the number 0 as
    resolver and [false] as loader are of the wrong shape, and construction
    succeeds with the defaults. *)
Lemma constructor_falsy_options_counterexample :
  constructor localhost falsy_options = Normal (defaults localhost)
  /\ ~ exists msg,
         constructor localhost falsy_options = Throw (ThrownError KTypeError msg None).
Proof.
  split; [reflexivity|]. intros [msg H]. discriminate H.
Qed.

(** The constructor makes the table instance of the table options: the
    known name resolves to its entry, an unknown one to [undefined]. *)
Example constructor_table :
  exists cfg,
    constructor localhost table_options = Normal cfg
    /\ this_filter cfg = this_filter table_instance
    /\ this_urlResolver cfg "x-element" = Normal (VString "/js/x-element-element.js")
    /\ this_urlResolver cfg "y-element" = Normal VUndefined
    /\ this_urlResolver table_instance "y-element" = Normal VUndefined.
Proof. eexists. split; [reflexivity|]. repeat split. Qed.

(** A rejecting loader: the rejection that surfaces wraps the loading
    error, which wraps what the loader rejected with. *)
Example rejecting_loader_surfaces :
  unhandled (trace (drain (onElementAdded localhost rejecting_instance
                             (Elem "X-Y" None []) empty_world)))
  = [ ThrownError KError "Error defining element 'x-y'."
        (Some (ThrownError KError
           "Error loading constructor for custom-element 'x-y' from 'http://localhost/x-y.js'."
           (Some (ThrownValue (VString "offline"))))) ].
Proof. reflexivity. Qed.

(** * Further properties of the code *)

(** ** Lower case *)





(** ** The runs a batch or a scan starts *)

Section RunsStarted.
Variable P : Platform.
Variable this : Config.

Lemma passes_gate_registry (w w' : World) (e : Element) :
  registry w' = registry w -> passes_gate this w' e = passes_gate this w e.
Proof.
  intros H. unfold passes_gate. rewrite !shouldHandle_fst.
  rewrite (eligible_registry w w' _ H). reflexivity.
Qed.

Lemma onElementAdded_run (e : Element) (w : World) :
  inflight (onElementAdded P this e w)
  = inflight w ++ (if passes_gate this w e then [run_of P this e] else []).
Proof.
  unfold passes_gate. rewrite shouldHandle_fst, onElementAdded_cases. cbn zeta.
  cbn [to_string]. destruct (eligible w _); cbn [andb]; [|rewrite app_nil_r; reflexivity].
  destruct (this_filter this) as [f|]; [destruct (truthy _)|];
    rewrite ?define_inflight, ?app_nil_r; reflexivity.
Qed.

Lemma onElementAdded_subscription (e : Element) (w : World) :
  subscription (onElementAdded P this e w) = subscription w.
Proof.
  rewrite onElementAdded_cases. cbn zeta. destruct (eligible w _); [|reflexivity].
  destruct (this_filter this) as [f|]; [destruct (truthy _)|];
    rewrite ?define_subscription; reflexivity.
Qed.

Lemma load_callback_calls (n : string) :
  forallb is_callback_call (fst (load P this n)) = true.
Proof.
  unfold load. destruct (this_urlResolver this n) as [v|t]; [|reflexivity].
  destruct v as [| | | | |s|u|]; try reflexivity.
  destruct (parseURL P s); reflexivity.
Qed.

Lemma onElementAdded_trace (e : Element) (w : World) :
  exists evs,
    trace (onElementAdded P this e w) = trace w ++ evs
    /\ forallb is_callback_call evs = true.
Proof.
  rewrite onElementAdded_cases. cbn zeta.
  destruct (eligible w _); [|exists []; rewrite app_nil_r; split; reflexivity].
  destruct (this_filter this) as [f|]; [destruct (truthy _)|].
  - eexists. rewrite define_trace. cbn [log trace]. rewrite <- app_assoc.
    split; [reflexivity|]. cbn [app forallb is_callback_call andb].
    apply load_callback_calls.
  - eexists. cbn [log trace]. split; reflexivity.
  - eexists. rewrite define_trace. split; [reflexivity | apply load_callback_calls].
Qed.

Lemma visit_all_runs (l : list Element) (w : World) :
  inflight (visit_all P this l w)
  = inflight w ++ (run_of P this <$> List.filter (passes_gate this w) l).
Proof.
  revert w. induction l as [|e l IH]; intros w.
  - cbn. rewrite app_nil_r. reflexivity.
  - unfold visit_all in *. cbn [fold_left List.filter].
    rewrite IH, onElementAdded_run, <- app_assoc. f_equal.
    assert (Hext : List.filter (passes_gate this (onElementAdded P this e w)) l
                   = List.filter (passes_gate this w) l).
    { apply List.filter_ext. intros a. apply passes_gate_registry, onElementAdded_registry. }
    rewrite Hext. destruct (passes_gate this w e); reflexivity.
Qed.

Lemma visit_all_subscription (l : list Element) (w : World) :
  subscription (visit_all P this l w) = subscription w.
Proof.
  revert w. induction l as [|e l IH]; intros w; [reflexivity|].
  unfold visit_all in *. cbn [fold_left]. rewrite IH. apply onElementAdded_subscription.
Qed.

Lemma visit_all_trace (l : list Element) (w : World) :
  exists evs,
    trace (visit_all P this l w) = trace w ++ evs
    /\ forallb is_callback_call evs = true.
Proof.
  revert w. induction l as [|e l IH]; intros w.
  - exists []. rewrite app_nil_r. split; reflexivity.
  - unfold visit_all in *. cbn [fold_left].
    destruct (onElementAdded_trace e w) as (e1 & H1 & F1).
    destruct (IH (onElementAdded P this e w)) as (e2 & H2 & F2).
    exists (e1 ++ e2). rewrite H2, H1, app_assoc. split; [reflexivity|].
    rewrite forallb_app, F1, F2. reflexivity.
Qed.

End RunsStarted.

Lemma callback_calls_only (evs : list event) :
  forallb is_callback_call evs = true ->
  define_calls evs = [] /\ unhandled evs = [] /\ warnings evs = [].
Proof.
  induction evs as [|ev evs IH]; [repeat split|].
  cbn [forallb]. rewrite andb_true_iff. intros [Hev Hevs].
  destruct (IH Hevs) as (Hd & Hu & Hw).
  unfold define_calls, unhandled, warnings in *.
  destruct ev; try discriminate; cbn [omap list_omap]; repeat split; assumption.
Qed.

Lemma mutationCallback_runs (P : Platform) (this : Config) (w : World)
    (records : list MutationRecord) :
  runs_started w (mutationCallback P this records w)
  = run_of P this <$> List.filter (passes_gate this w) (reported_elements records).
Proof.
  apply runs_started_app. rewrite mutationCallback_visit_all. apply visit_all_runs.
Qed.

Lemma observe_runs (P : Platform) (this : Config) (w : World)
    (target : Element) (options : ObserveOptions) :
  runs_started w (observe P this target options w)
  = run_of P this <$>
      List.filter (passes_gate this w)
        (scanned P target
           (resolveObserveOptions options {| opt_scan := true; opt_subtree := true |})).
Proof.
  apply runs_started_app.
  rewrite observe_visit_all. cbn zeta. rewrite visit_all_runs. cbn [subscribed inflight].
  f_equal. f_equal. apply List.filter_ext. intros e.
  apply passes_gate_registry. reflexivity.
Qed.

(** X2. The mutation callback and [observe] start one run for every
    occurrence of an element that passes the gate, in the order of the
    records, and for a scan in the order of the scanned elements: the
    target and, with [subtree], its tree in document order, or, for a target
    with an iterator of its own, the elements it yields and their trees.
    Two occurrences of one name are two runs.  The gate is the one of the
    world the call started in. *)
Theorem runs_started_in_order (P : Platform) (this : Config) (w : World) :
  (forall records,
     runs_started w (mutationCallback P this records w)
     = run_of P this <$> List.filter (passes_gate this w) (reported_elements records))
  /\ (forall target options,
        runs_started w (observe P this target options w)
        = run_of P this <$>
            List.filter (passes_gate this w)
              (scanned P target
                 (resolveObserveOptions options {| opt_scan := true; opt_subtree := true |}))).
Proof.
  split; [apply mutationCallback_runs | apply observe_runs].
Qed.

Lemma mutationCallback_frame (P : Platform) (this : Config) (w : World)
    (records : list MutationRecord) :
  let w' := mutationCallback P this records w in
  registry w' = registry w
  /\ subscription w' = subscription w
  /\ trace w' = trace w ++ effects_since w w'
  /\ forallb is_callback_call (effects_since w w') = true
  /\ define_calls (effects_since w w') = []
  /\ unhandled (effects_since w w') = []
  /\ warnings (effects_since w w') = [].
Proof.
  cbn zeta. rewrite mutationCallback_visit_all.
  destruct (visit_all_trace P this (reported_elements records) w) as (evs & Ht & Hc).
  rewrite (effects_since_app _ _ _ Ht).
  destruct (callback_calls_only evs Hc) as (Hd & Hu & Hw).
  rewrite visit_all_registry, visit_all_subscription. repeat split; assumption.
Qed.

Lemma observe_frame (P : Platform) (this : Config) (w : World)
    (target : Element) (options : ObserveOptions) :
  let o := resolveObserveOptions options {| opt_scan := true; opt_subtree := true |} in
  let w' := observe P this target options w in
  registry w' = registry w
  /\ subscription w'
     = Some {| sub_target := ElementNode target; sub_attributeFilter := ["is"];
               sub_childList := opt_subtree o; sub_subtree := opt_subtree o |}
  /\ forallb is_callback_call (effects_since w w') = true
  /\ define_calls (effects_since w w') = []
  /\ unhandled (effects_since w w') = []
  /\ warnings (effects_since w w') = [].
Proof.
  cbn zeta. rewrite observe_visit_all. cbn zeta.
  match goal with |- context [visit_all P this ?l ?w0] =>
    destruct (visit_all_trace P this l w0) as (evs & Ht & Hc) end.
  cbn [subscribed trace] in Ht.
  rewrite (effects_since_app _ _ _ Ht).
  destruct (callback_calls_only evs Hc) as (Hd & Hu & Hw).
  rewrite visit_all_registry, visit_all_subscription. repeat split; assumption.
Qed.

(** X3. Neither [observe] nor the mutation callback defines, warns or
    rejects before it returns: the registry is untouched and the only
    effects are calls of the filter, the resolver and the loader.  The
    callback leaves the subscription alone; [observe] replaces it by one on
    the [is] attribute of the target, with [childList] and [subtree] both
    the resolved [subtree] option. *)
Theorem synchronous_part_frame (P : Platform) (this : Config) (w : World) :
  (forall records,
     let w' := mutationCallback P this records w in
     registry w' = registry w
     /\ subscription w' = subscription w
     /\ forallb is_callback_call (effects_since w w') = true
     /\ define_calls (effects_since w w') = []
     /\ unhandled (effects_since w w') = []
     /\ warnings (effects_since w w') = [])
  /\ (forall target options,
        let o := resolveObserveOptions options {| opt_scan := true; opt_subtree := true |} in
        let w' := observe P this target options w in
        registry w' = registry w
        /\ subscription w'
           = Some {| sub_target := ElementNode target; sub_attributeFilter := ["is"];
                     sub_childList := opt_subtree o; sub_subtree := opt_subtree o |}
        /\ forallb is_callback_call (effects_since w w') = true
        /\ define_calls (effects_since w w') = []
        /\ unhandled (effects_since w w') = []
        /\ warnings (effects_since w w') = []).
Proof.
  split.
  - intros records. destruct (mutationCallback_frame P this w records)
      as (Hr & Hs & _ & Hc & Hd & Hu & Hw). repeat split; assumption.
  - intros target options. apply observe_frame.
Qed.

(** ** [#load], the default resolver and the default loader *)

Lemma load_loader_call_inv (P : Platform) (this : Config) (n : string) (u : URL) :
  In (LoaderCall u) (fst (load P this n)) ->
  this_urlResolver this n = Normal (VUrl u)
  \/ exists s, this_urlResolver this n = Normal (VString s) /\ parseURL P s = Some u.
Proof.
  unfold load. destruct (this_urlResolver this n) as [v|t].
  - destruct v as [| | | | |s|u'|]; cbn; try (intros [H|[]]; discriminate).
    + destruct (parseURL P s) as [u'|] eqn:Hp; cbn.
      * intros [H|[H|[]]]; [discriminate|]. injection H as ->. right. eauto.
      * intros [H|[]]; discriminate.
    + intros [H|[H|[]]]; [discriminate|]. injection H as ->. left. reflexivity.
  - cbn. intros [H|[]]; discriminate.
Qed.

Lemma load_cases (P : Platform) (this : Config) (n : string) :
  (exists t, load P this n = ([UrlResolverCall n], Rejected t))
  \/ (exists u, fst (load P this n) = [UrlResolverCall n; LoaderCall u]).
Proof.
  unfold load. destruct (this_urlResolver this n) as [v|t]; [|left; eauto].
  destruct v as [| | | | |s|u|]; try (left; eexists; reflexivity).
  - destruct (parseURL P s) as [u|]; [right; eauto | left; eauto].
  - right. eauto.
Qed.

Lemma load_settled_by_loader (P : Platform) (this : Config) (n : string) :
  (forall d, snd (load P this n) = Fulfilled d ->
     exists u, In (LoaderCall u) (fst (load P this n))
               /\ this_loader this u = Normal (Fulfilled d))
  /\ (snd (load P this n) = Pending ->
        exists u, In (LoaderCall u) (fst (load P this n))
                  /\ this_loader this u = Normal Pending).
Proof.
  destruct (load_cases P this n) as [[t Ht]|[u Hu]].
  - rewrite Ht. split; [intros d|]; discriminate.
  - assert (Hcall : In (LoaderCall u) (fst (load P this n))).
    { rewrite Hu. right. left. reflexivity. }
    rewrite (load_loader_call P this n u Hcall).
    destruct (this_loader this u) as [[d'| |]|] eqn:Hl; split; try discriminate.
    + intros d [= ->]. eauto.
    + intros _. eauto.
Qed.

(** X4. [#load] calls the loader at most once, after the resolver, and
    only with a URL the resolver's answer stands for: the URL object it
    returned, passed on as it is, or the parse of the string it returned.
    The promise of [#load] is fulfilled only with what that loader call is
    fulfilled with, and stays pending only if that call does. *)
Theorem load_loader_discipline (P : Platform) (this : Config) (n : string) :
  (length (loader_calls (fst (load P this n))) <= 1)%nat
  /\ (forall u, this_urlResolver this n = Normal (VUrl u) ->
        fst (load P this n) = [UrlResolverCall n; LoaderCall u])
  /\ (forall s u, this_urlResolver this n = Normal (VString s) -> parseURL P s = Some u ->
        fst (load P this n) = [UrlResolverCall n; LoaderCall u])
  /\ (forall u, In (LoaderCall u) (fst (load P this n)) ->
        this_urlResolver this n = Normal (VUrl u)
        \/ exists s, this_urlResolver this n = Normal (VString s) /\ parseURL P s = Some u)
  /\ (forall d, snd (load P this n) = Fulfilled d <->
        exists u, In (LoaderCall u) (fst (load P this n))
                  /\ this_loader this u = Normal (Fulfilled d))
  /\ (snd (load P this n) = Pending <->
        exists u, In (LoaderCall u) (fst (load P this n))
                  /\ this_loader this u = Normal Pending).
Proof.
  split; [|split; [|split; [|split; [|split]]]].
  - unfold load. destruct (this_urlResolver this n) as [v|t]; [|cbn; lia].
    destruct v as [| | | | |s|u|]; cbn; try lia.
    destruct (parseURL P s); cbn; lia.
  - intros u Hu. unfold load. rewrite Hu. reflexivity.
  - intros s u Hs Hp. unfold load. rewrite Hs, Hp. reflexivity.
  - apply load_loader_call_inv.
  - intros d. split; [apply load_settled_by_loader|].
    intros (u & Hcall & Hl). rewrite (load_loader_call P this n u Hcall), Hl. reflexivity.
  - split; [apply load_settled_by_loader|].
    intros (u & Hcall & Hl). rewrite (load_loader_call P this n u Hcall), Hl. reflexivity.
Qed.

(** The witness of X4: the string [x-y.js] parses against the document
    and the loader is called with the parsed URL. *)
Lemma load_loader_discipline_witness :
  this_urlResolver js_instance "x-y" = Normal (VString "x-y.js")
  /\ parseURL localhost "x-y.js" = Some {| href := "http://localhost/x-y.js" |}
  /\ fst (load localhost js_instance "x-y")
     = [UrlResolverCall "x-y"; LoaderCall {| href := "http://localhost/x-y.js" |}].
Proof.
  split; [reflexivity|]. split; [reflexivity|].
  exact (proj1 (proj2 (proj2 (load_loader_discipline localhost js_instance "x-y")))
           "x-y.js" {| href := "http://localhost/x-y.js" |} eq_refl eq_refl).
Defined.

(** X5. With the default resolver a run asks the loader for
    [/js/<name>-element.js], resolved against the document.  If the
    platform cannot resolve that path, [#load] rejects with the platform's
    own error, unwrapped; no other failure of [#load] is possible than this
    one and a wrapped failure of the loader. *)
Theorem default_resolver_load (P : Platform) (this : Config) (n : string) :
  this_urlResolver this = resolveUrlDefault P ->
  (forall u, parseURL P ("/js/" +:+ n +:+ "-element.js") = Some u ->
     fst (load P this n) = [UrlResolverCall n; LoaderCall u])
  /\ (parseURL P ("/js/" +:+ n +:+ "-element.js") = None ->
        load P this n = ([UrlResolverCall n], Rejected INVALID_URL))
  /\ (forall t, snd (load P this n) = Rejected t ->
        t = INVALID_URL \/ exists msg c, t = ThrownError KError msg (Some c)).
Proof.
  intros Hr. unfold load. rewrite Hr. unfold resolveUrlDefault.
  destruct (parseURL P _) as [u|]; split; [|split| |split]; try discriminate.
  - intros u' [= <-]. reflexivity.
  - cbn [snd]. intros t. destruct (this_loader this u) as [[]|]; intros [= <-]; eauto.
  - reflexivity.
  - cbn [snd]. intros t [= <-]. left. reflexivity.
Qed.

(** The witness of X5: the default instance at [http://localhost/]. *)
Lemma default_resolver_load_witness :
  this_urlResolver (defaults localhost) = resolveUrlDefault localhost
  /\ parseURL localhost ("/js/" +:+ "my-section" +:+ "-element.js")
     = Some {| href := "http://localhost/js/my-section-element.js" |}
  /\ fst (load localhost (defaults localhost) "my-section")
     = [UrlResolverCall "my-section";
        LoaderCall {| href := "http://localhost/js/my-section-element.js" |}].
Proof.
  split; [reflexivity|]. split; [reflexivity|].
  exact (proj1 (default_resolver_load localhost (defaults localhost) "my-section" eq_refl)
           {| href := "http://localhost/js/my-section-element.js" |} eq_refl).
Defined.

(** X6. The default loader never throws.  A module whose default export
    is falsy (missing, [null]) is a rejection with a [TypeError] that
    carries the URL, and a failed import is the same rejection.  A class or
    a truthy value is handed over as it is; a thenable default export is
    adopted, so the loader ends as the thenable does.  The loader is
    therefore fulfilled with a falsy value only through a thenable default
    export, and unless a module exports one, a run under the default loader
    never ends in the [null] warning. *)
Theorem loadDefault_contract (P : Platform) (url : URL) :
  (exists p, loadDefault P url = Normal p)
  /\ (forall d, dynamicImport P url = Imported d -> export_truthy d = false ->
        exists msg,
          loadDefault P url = Normal (Rejected (ThrownError KTypeError msg None))
          /\ occurs_in (href url) msg = true)
  /\ (forall t, dynamicImport P url = ImportFailed t -> loadDefault P url = Normal (Rejected t))
  /\ (forall c, dynamicImport P url = Imported (ExportClass c) ->
        loadDefault P url = Normal (Fulfilled (LoadedClass c)))
  /\ (forall v, dynamicImport P url = Imported (ExportValue v) -> truthy v = true ->
        loadDefault P url = Normal (Fulfilled (LoadedValue v)))
  /\ (forall p, dynamicImport P url = Imported (ExportThenable p) ->
        loadDefault P url = Normal p)
  /\ (forall v, loadDefault P url = Normal (Fulfilled (LoadedValue v)) -> truthy v = false ->
        exists p, dynamicImport P url = Imported (ExportThenable p))
  /\ (forall this names w,
        this_loader this = loadDefault P ->
        (forall u p, dynamicImport P u <> Imported (ExportThenable p)) ->
        warnings (effects_since w
          (define_continuation
             {| job_names := names; job_load := snd (load P this (elementName names)) |} w))
        = []).
Proof.
  assert (Hfalsy : forall u v,
    loadDefault P u = Normal (Fulfilled (LoadedValue v)) -> truthy v = false ->
    exists p, dynamicImport P u = Imported (ExportThenable p)).
  { intros u v. unfold loadDefault.
    destruct (dynamicImport P u) as [[c|v'|p]| |]; cbn [export_truthy negb];
      try discriminate.
    - destruct (truthy v') eqn:Hv'; cbn [negb]; [|discriminate].
      intros [= <-] Hv. congruence.
    - intros _ _. eauto. }
  split; [eexists; reflexivity|].
  split; [|split; [|split; [|split; [|split; [|split]]]]].
  - intros d Hi Hd. unfold loadDefault. rewrite Hi, Hd. cbn [negb].
    eexists. split; [reflexivity | apply occurs_in_append].
  - intros t Hi. unfold loadDefault. rewrite Hi. reflexivity.
  - intros c Hi. unfold loadDefault. rewrite Hi. reflexivity.
  - intros v Hi Hv. unfold loadDefault. rewrite Hi. cbn [export_truthy]. rewrite Hv.
    reflexivity.
  - intros p Hi. unfold loadDefault. rewrite Hi. reflexivity.
  - apply Hfalsy.
  - intros this names w Hl Hno.
    destruct (snd (load P this (elementName names))) as [d|t|] eqn:Hload.
    + apply (proj1 (load_settled_by_loader P this _)) in Hload.
      destruct Hload as (u & _ & Hu). rewrite Hl in Hu.
      assert (Hnn : d <> LoadedValue VNull).
      { intros ->. destruct (Hfalsy u VNull Hu eq_refl) as [p Hp]. exact (Hno u p Hp). }
      rewrite (define_continuation_fulfilled names d w Hnn). cbn zeta.
      destruct (customElements_define _ _ _ _).
      * erewrite effects_since_app; [|reflexivity]. reflexivity.
      * erewrite effects_since_app; [|cbn [log trace]; rewrite <- app_assoc; reflexivity].
        reflexivity.
    + erewrite effects_since_app; [|reflexivity]. reflexivity.
    + erewrite (effects_since_app w _ []); [reflexivity|].
      cbn. rewrite app_nil_r. reflexivity.
Qed.

(** The witness of X6: a module without default export is rejected with
    a [TypeError] that names the URL. *)
Lemma loadDefault_contract_witness :
  dynamicImport no_default_export {| href := "http://localhost/js/x-y-element.js" |}
  = Imported (ExportValue VUndefined)
  /\ export_truthy (ExportValue VUndefined) = false
  /\ exists msg,
       loadDefault no_default_export {| href := "http://localhost/js/x-y-element.js" |}
       = Normal (Rejected (ThrownError KTypeError msg None))
       /\ occurs_in "http://localhost/js/x-y-element.js" msg = true.
Proof.
  split; [reflexivity|]. split; [reflexivity|].
  exact (proj1 (proj2
    (loadDefault_contract no_default_export {| href := "http://localhost/js/x-y-element.js" |}))
    (ExportValue VUndefined) eq_refl eq_refl).
Defined.

(** A module with [export default Promise.resolve(null)]: the default
    loader adopts the promise and the run ends in the warning. *)
Example default_loader_adopts_thenable :
  warnings (trace (drain (onElementAdded promised_null_export (defaults promised_null_export)
                            (Elem "X-Y" None []) empty_world)))
  = ["Custom-Element constructor for 'x-y' is null, skipping definition!"].
Proof. reflexivity. Qed.

(** ** The continuation of [#define] and the registry *)

Lemma define_continuation_inflight (job : InFlight) (w : World) :
  inflight (define_continuation job w) = inflight w
  /\ subscription (define_continuation job w) = subscription w.
Proof.
  unfold define_continuation. destruct (job_load job) as [d|t|]; try (split; reflexivity).
  destruct d as [c|v].
  - destruct (customElements_define _ _ _ _); split; reflexivity.
  - destruct v; try (split; reflexivity);
      destruct (customElements_define _ _ _ _); split; reflexivity.
Qed.

(** The registry after a continuation: as before, or with the class of
    the run under the run's name, which was free. *)
Lemma define_continuation_registry (job : InFlight) (w : World) :
  let n := elementName (job_names job) in
  (registry (define_continuation job w) = registry w
   /\ forall c, job_load job = Fulfilled (LoadedClass c) -> registry w !! n <> None)
  \/ (exists c, job_load job = Fulfilled (LoadedClass c)
                /\ registry w !! n = None
                /\ registry (define_continuation job w) = <[n := c]> (registry w)).
Proof.
  cbn zeta. unfold define_continuation.
  destruct (job_load job) as [d|t|]; try (left; split; [reflexivity | discriminate]).
  destruct d as [c|v].
  - cbn [customElements_define log registry]. unfold customElements_get.
    destruct (registry w !! elementName (job_names job)) eqn:Hreg.
    + left. split; [reflexivity|]. intros c' _. discriminate.
    + right. exists c. repeat split; assumption.
  - left. destruct v; split; try reflexivity; discriminate.
Qed.

(** X7. A continuation that runs on a settled promise is never silent:
    it either puts the class into the registry under a name that was free,
    with nothing warned and nothing rejected, or leaves the registry as it
    was and records exactly one warning or exactly one unhandled rejection.
    On a pending promise it does nothing at all.  It never touches the runs
    in flight or the subscription. *)
Theorem define_continuation_outcome (job : InFlight) (w : World) :
  let n := elementName (job_names job) in
  let w' := define_continuation job w in
  let evs := effects_since w w' in
  inflight w' = inflight w
  /\ subscription w' = subscription w
  /\ (job_load job = Pending -> w' = w)
  /\ (job_load job <> Pending ->
        (exists c, job_load job = Fulfilled (LoadedClass c)
                   /\ registry w !! n = None
                   /\ registry w' = <[n := c]> (registry w)
                   /\ warnings evs = [] /\ unhandled evs = [])
        \/ (registry w' = registry w
            /\ (length (warnings evs) + length (unhandled evs) = 1)%nat)).
Proof.
  cbn zeta. destruct (define_continuation_inflight job w) as [Hi Hs].
  split; [exact Hi|]. split; [exact Hs|]. split.
  - intros Hp. unfold define_continuation. rewrite Hp. reflexivity.
  - intros Hnp. unfold define_continuation.
    destruct (job_load job) as [d|t|]; [| |congruence].
    + destruct d as [c|v].
      * cbn [customElements_define log registry]. unfold customElements_get.
        destruct (registry w !! elementName (job_names job)) eqn:Hreg.
        -- right. split; [reflexivity|].
           erewrite effects_since_app;
             [|cbn [log trace]; rewrite <- app_assoc; reflexivity].
           reflexivity.
        -- left. exists c. split; [reflexivity|]. split; [reflexivity|].
           split; [reflexivity|].
           erewrite effects_since_app; [|reflexivity]. split; reflexivity.
      * right. destruct v;
          try (split; [reflexivity|];
               erewrite effects_since_app;
                 [|cbn [log trace customElements_define]; rewrite <- ?app_assoc; reflexivity];
               reflexivity).
    + right. split; [reflexivity|].
      erewrite effects_since_app; [|reflexivity]. reflexivity.
Qed.

(** The witness of X7: the class loaded for [x-y] goes into the empty
    registry. *)
Lemma define_continuation_outcome_witness :
  Fulfilled (LoadedClass 7) <> Pending
  /\ registry (define_continuation
                 {| job_names := resolveNames (Elem "X-Y" None []);
                    job_load := Fulfilled (LoadedClass 7) |} empty_world) !! "x-y"
     = Some 7%nat.
Proof.
  split; [discriminate|].
  destruct (proj2 (proj2 (proj2
    (define_continuation_outcome
       {| job_names := resolveNames (Elem "X-Y" None []);
          job_load := Fulfilled (LoadedClass 7) |} empty_world))))
    as [(c & Hc & _ & Hreg & _)|[Hreg _]]; [discriminate | | ].
  - rewrite Hreg. injection Hc as <-. apply lookup_insert_eq.
  - reflexivity.
Defined.

Lemma define_continuation_keeps (job : InFlight) (w : World) (n : string) (c : nat) :
  registry w !! n = Some c -> registry (define_continuation job w) !! n = Some c.
Proof.
  intros Hn. destruct (define_continuation_registry job w) as [[-> _]|(c' & _ & Hfree & ->)];
    [exact Hn|].
  rewrite lookup_insert_ne; [exact Hn|]. intros Heq. rewrite Heq in Hfree. congruence.
Qed.

Lemma drain_fold_keeps (jobs : list InFlight) (w : World) (n : string) (c : nat) :
  registry w !! n = Some c ->
  registry (fold_left (fun w job => define_continuation job w) jobs w) !! n = Some c.
Proof.
  revert w. induction jobs as [|job jobs IH]; intros w Hn; [exact Hn|].
  cbn [fold_left]. apply IH, define_continuation_keeps, Hn.
Qed.

(** X8. A definition is never replaced or removed: whatever runs settle,
    in whatever number, a name that is in the registry stays there with the
    class it has. *)
Theorem registrations_are_kept (w : World) (n : string) (c : nat) :
  registry w !! n = Some c ->
  (forall job, registry (define_continuation job w) !! n = Some c)
  /\ registry (drain w) !! n = Some c.
Proof.
  intros Hn. split.
  - intros job. apply define_continuation_keeps, Hn.
  - unfold drain. cbn [registry]. apply drain_fold_keeps, Hn.
Qed.

(** The witness of X8: [a-element] keeps class 0 when a run for the same
    name settles with another class. *)
Lemma registrations_are_kept_witness :
  registry registered_world !! "a-element" = Some 0%nat
  /\ registry (define_continuation
                 {| job_names := resolveNames (Elem "A-ELEMENT" None []);
                    job_load := Fulfilled (LoadedClass 5) |} registered_world) !! "a-element"
     = Some 0%nat.
Proof.
  split; [reflexivity|].
  exact (proj1 (registrations_are_kept registered_world "a-element" 0 eq_refl) _).
Defined.

Lemma passes_gate_unregistered (this : Config) (w : World) (e : Element) :
  passes_gate this w e = true -> registry w !! handled_name e = None.
Proof.
  unfold passes_gate. rewrite shouldHandle_fst, andb_true_iff. intros [He _].
  apply eligible_unregistered in He. exact He.
Qed.

Lemma define_continuation_class_free (names : ElementNames) (c : nat) (w : World) :
  registry w !! elementName names = None ->
  define_continuation {| job_names := names; job_load := Fulfilled (LoadedClass c) |} w
  = {| registry := <[elementName names := c]> (registry w);
       trace := trace w ++ [DefineCall (elementName names) (LoadedClass c)
                              match isAttr names with
                              | Some _ => Some (tagName names)
                              | None => None
                              end];
       inflight := inflight w; subscription := subscription w |}.
Proof.
  intros Hfree. rewrite define_continuation_fulfilled by discriminate. cbn zeta.
  cbn [customElements_define]. unfold customElements_get. rewrite Hfree. reflexivity.
Qed.

Lemma define_continuation_class_taken (names : ElementNames) (c c0 : nat) (w : World) :
  registry w !! elementName names = Some c0 ->
  exists t,
    error_kind t = Some KNotSupportedError
    /\ define_continuation {| job_names := names; job_load := Fulfilled (LoadedClass c) |} w
       = log w [DefineCall (elementName names) (LoadedClass c)
                  match isAttr names with
                  | Some _ => Some (tagName names)
                  | None => None
                  end;
                UnhandledRejection (defining_error names t)].
Proof.
  intros Htaken. rewrite define_continuation_fulfilled by discriminate. cbn zeta.
  cbn [customElements_define]. unfold customElements_get. rewrite Htaken.
  eexists. split; cycle 1.
  - unfold log. cbn. rewrite <- app_assoc. reflexivity.
  - reflexivity.
Qed.

(** X9. Nothing remembers a name while its load is in flight.  When one
    batch reports the same eligible element twice and its load yields a
    class, both runs call [customElements.define]: the first call defines
    the name, the second is refused by the registry and surfaces as one
    unhandled rejection. *)
Theorem duplicate_event_race
    (P : Platform) (this : Config) (target e : Element) (c : nat) (w : World) :
  inflight w = [] ->
  passes_gate this w e = true ->
  snd (load P this (handled_name e)) = Fulfilled (LoadedClass c) ->
  let w' := drain (mutationCallback P this [added target [ElementNode e; ElementNode e]] w) in
  runs_started w (mutationCallback P this [added target [ElementNode e; ElementNode e]] w)
  = [run_of P this e; run_of P this e]
  /\ registry w' = <[handled_name e := c]> (registry w)
  /\ length (define_calls (effects_since w w')) = 2%nat
  /\ (exists t,
        unhandled (effects_since w w') = [defining_error (resolveNames e) t]
        /\ error_kind t = Some KNotSupportedError)
  /\ inflight w' = [].
Proof.
  intros Hempty Hgate Hload. cbn zeta.
  assert (Hruns := mutationCallback_runs P this w
                     [added target [ElementNode e; ElementNode e]]).
  assert (Hframe := mutationCallback_frame P this w
                      [added target [ElementNode e; ElementNode e]]).
  cbn zeta in Hframe.
  set (w0 := mutationCallback P this [added target [ElementNode e; ElementNode e]] w) in *.
  destruct Hframe as (Hreg & _ & Htr & Hcalls & Hd & Hu & _).
  change (reported_elements [added target [ElementNode e; ElementNode e]]) with [e; e] in Hruns.
  cbn [List.filter] in Hruns. rewrite Hgate in Hruns. cbn [fmap list_fmap] in Hruns.
  assert (Hrun : run_of P this e
                 = {| job_names := resolveNames e; job_load := Fulfilled (LoadedClass c) |}).
  { unfold run_of. rewrite Hload. reflexivity. }
  rewrite Hrun in Hruns.
  assert (Hin : inflight w0
                = [ {| job_names := resolveNames e; job_load := Fulfilled (LoadedClass c) |};
                    {| job_names := resolveNames e; job_load := Fulfilled (LoadedClass c) |} ]).
  { unfold runs_started in Hruns. rewrite Hempty in Hruns. exact Hruns. }
  assert (Hfree : registry w0 !! elementName (resolveNames e) = None).
  { rewrite Hreg. exact (passes_gate_unregistered this w e Hgate). }
  split; [rewrite Hrun; exact Hruns|].
  unfold drain. rewrite Hin. cbn [fold_left List.filter is_pending job_load].
  rewrite (define_continuation_class_free _ c w0 Hfree).
  match goal with |- context [define_continuation _ ?w1] =>
    destruct (define_continuation_class_taken (resolveNames e) c c w1) as (t & Hk & ->);
      [cbn [registry]; apply lookup_insert_eq|] end.
  cbn [log registry trace inflight subscription]. rewrite Hreg.
  split; [reflexivity|].
  split; [|split; [|reflexivity]].
  - erewrite effects_since_app.
    2:{ rewrite Htr, <- !app_assoc. reflexivity. }
    rewrite !define_calls_app, Hd. reflexivity.
  - exists t. split; [|exact Hk].
    erewrite effects_since_app.
    2:{ rewrite Htr, <- !app_assoc. reflexivity. }
    rewrite !unhandled_app, Hu. reflexivity.
Qed.

(** The witness of X9: [<x-y>] reported twice to an instance whose loader
    yields class 7. *)
Lemma duplicate_event_race_witness :
  inflight empty_world = []
  /\ passes_gate class_instance empty_world (Elem "X-Y" None []) = true
  /\ snd (load localhost class_instance (handled_name (Elem "X-Y" None [])))
     = Fulfilled (LoadedClass 7)
  /\ registry (drain (mutationCallback localhost class_instance
                        [added (Elem "DIV" None [])
                           [ElementNode (Elem "X-Y" None []); ElementNode (Elem "X-Y" None [])]]
                        empty_world))
     = <[handled_name (Elem "X-Y" None []) := 7%nat]> (registry empty_world).
Proof.
  split; [reflexivity|]. split; [reflexivity|]. split; [reflexivity|].
  exact (proj1 (proj2 (duplicate_event_race localhost class_instance (Elem "DIV" None [])
                         (Elem "X-Y" None []) 7 empty_world eq_refl eq_refl eq_refl))).
Defined.

(** ** The constructor, continued *)

(** X11. The constructor checks the filter first, the resolver second
    and the loader last, and throws at the first option of the wrong shape
    with that option's message.  An option that is falsy takes its default
    on its own, whatever the other two are. *)
Theorem constructor_error_precedence (P : Platform) (o : ConstructorInit) :
  (bad_filter (init_filter o) ->
     constructor P (OptionsObject o)
     = Throw (ThrownError KTypeError
                "Expecting provided filter to be type of function or string[]." None))
  /\ (~ bad_filter (init_filter o) -> bad_urlResolver (init_urlResolver o) ->
        constructor P (OptionsObject o)
        = Throw (ThrownError KTypeError
                   "Expecting provided urlResolver to be type of function." None))
  /\ (~ bad_filter (init_filter o) -> ~ bad_urlResolver (init_urlResolver o) ->
        bad_loader (init_loader o) ->
        constructor P (OptionsObject o)
        = Throw (ThrownError KTypeError
                   "Expecting provided loader to be type of function." None))
  /\ (forall cfg, constructor P (OptionsObject o) = Normal cfg ->
        (filter_truthy (init_filter o) = false -> this_filter cfg = None)
        /\ (urlResolver_truthy (init_urlResolver o) = false ->
              this_urlResolver cfg = resolveUrlDefault P)
        /\ (loader_truthy (init_loader o) = false -> this_loader cfg = loadDefault P)).
Proof.
  destruct o as [fi ui li]. unfold constructor, resolveConstructorOptions.
  cbn [init_filter init_urlResolver init_loader].
  unfold bad_filter, bad_urlResolver, bad_loader.
  split; [|split; [|split]].
  - intros (v & -> & Hv). cbn [filter_truthy]. rewrite Hv. cbn [negb].
    destruct (negb (urlResolver_truthy ui)), ui, (negb (loader_truthy li)), li; reflexivity.
  - intros Hf (v & -> & Hv). cbn [urlResolver_truthy]. rewrite Hv. cbn [negb].
    destruct fi as [f|l|fv]; cbn [filter_truthy negb];
      [ | | destruct (truthy fv) eqn:Hfv; cbn [negb];
            [exfalso; apply Hf; eauto|] ];
      destruct (negb (loader_truthy li)), li; reflexivity.
  - intros Hf Hu (v & -> & Hv). cbn [loader_truthy]. rewrite Hv. cbn [negb].
    destruct fi as [f|l|fv]; cbn [filter_truthy negb];
      [ | | destruct (truthy fv) eqn:Hfv; cbn [negb];
            [exfalso; apply Hf; eauto|] ];
      (destruct ui as [uf|ut|uv]; cbn [urlResolver_truthy negb];
        [ | | destruct (truthy uv) eqn:Huv; cbn [negb];
              [exfalso; apply Hu; eauto|] ]);
      reflexivity.
  - intros cfg.
    destruct fi as [f|l|fv]; cbn [filter_truthy negb];
      [ | | destruct (truthy fv) eqn:Hfv; cbn [negb] ];
      (destruct ui as [uf|ut|uv]; cbn [urlResolver_truthy negb];
        [ | | destruct (truthy uv) eqn:Huv; cbn [negb] ]);
      (destruct li as [lf|lv]; cbn [loader_truthy negb];
        [ | destruct (truthy lv) eqn:Hlv; cbn [negb] ]);
      try discriminate;
      intros [= <-]; cbn [this_filter this_urlResolver this_loader defaults];
      repeat split; try reflexivity; try discriminate.
Qed.

(** The witness of X11: with a filter and a loader of the wrong shape the
    error is the filter's. *)
Lemma constructor_error_precedence_witness :
  bad_filter (init_filter two_invalid_options)
  /\ constructor localhost (OptionsObject two_invalid_options)
     = Throw (ThrownError KTypeError
                "Expecting provided filter to be type of function or string[]." None).
Proof.
  assert (H : bad_filter (init_filter two_invalid_options)).
  { exists (VString "invalid"). split; reflexivity. }
  split; [exact H|].
  exact (proj1 (constructor_error_precedence localhost two_invalid_options) H).
Defined.

Lemma constructor_filter_array (P : Platform) (o : ConstructorInit)
    (names : list value) (cfg : Config) :
  constructor P (OptionsObject o) = Normal cfg ->
  init_filter o = FilterArray names ->
  this_filter cfg = Some (fun name => VBool (includes_value names (VString name))).
Proof.
  destruct o as [fi ui li]. cbn [init_filter]. intros Hc ->. revert Hc.
  unfold constructor, resolveConstructorOptions.
  cbn [init_filter init_urlResolver init_loader filter_truthy negb].
  destruct ui as [uf|ut|uv]; cbn [urlResolver_truthy negb];
    [ | | destruct (truthy uv); cbn [negb] ];
    (destruct li as [lf|lv]; cbn [loader_truthy negb];
      [ | destruct (truthy lv); cbn [negb] ]);
    try discriminate; intros [= <-]; reflexivity.
Qed.

Lemma passes_gate_filter (this : Config) (f : string -> value) (w : World) (e : Element) :
  this_filter this = Some f -> passes_gate this w e = true ->
  truthy (f (handled_name e)) = true.
Proof.
  intros Hf. unfold passes_gate. rewrite shouldHandle_fst, Hf, andb_true_iff.
  intros [_ H]. exact H.
Qed.

Lemma runs_of_listed (P : Platform) (this : Config) (w : World)
    (names : list value) (l : list Element) :
  this_filter this = Some (fun name => VBool (includes_value names (VString name))) ->
  Forall (fun job => In (VString (elementName (job_names job))) names)
    (run_of P this <$> List.filter (passes_gate this w) l).
Proof.
  intros Hf. apply Forall_fmap, Forall_forall. intros e He.
  apply list_elem_of_In, List.filter_In in He. destruct He as [_ Hg].
  apply (passes_gate_filter this _ w e Hf) in Hg. cbn [truthy] in Hg.
  apply includes_value_In in Hg. exact Hg.
Qed.

(** X12. A filter given as an array is an allow-list: an instance built
    from it starts runs only for names in the array, from mutation records
    and from scans alike; with the empty array it starts none. *)
Theorem filter_array_allow_list
    (P : Platform) (o : ConstructorInit) (names : list value) (cfg : Config) (w : World) :
  constructor P (OptionsObject o) = Normal cfg ->
  init_filter o = FilterArray names ->
  (forall records,
     Forall (fun job => In (VString (elementName (job_names job))) names)
       (runs_started w (mutationCallback P cfg records w)))
  /\ (forall target options,
        Forall (fun job => In (VString (elementName (job_names job))) names)
          (runs_started w (observe P cfg target options w)))
  /\ (names = [] ->
        (forall records, runs_started w (mutationCallback P cfg records w) = [])
        /\ (forall target options, runs_started w (observe P cfg target options w) = [])).
Proof.
  intros Hc Ho. assert (Hf := constructor_filter_array P o names cfg Hc Ho).
  assert (Hm : forall records,
    Forall (fun job => In (VString (elementName (job_names job))) names)
      (runs_started w (mutationCallback P cfg records w))).
  { intros records. rewrite mutationCallback_runs. apply runs_of_listed, Hf. }
  assert (Hs : forall target options,
    Forall (fun job => In (VString (elementName (job_names job))) names)
      (runs_started w (observe P cfg target options w))).
  { intros target options. rewrite observe_runs. apply runs_of_listed, Hf. }
  split; [exact Hm|]. split; [exact Hs|].
  intros ->. split.
  - intros records. specialize (Hm records).
    destruct (runs_started _ _) as [|job jobs]; [reflexivity|].
    apply Forall_cons in Hm. destruct Hm as [[] _].
  - intros target options. specialize (Hs target options).
    destruct (runs_started _ _) as [|job jobs]; [reflexivity|].
    apply Forall_cons in Hs. destruct Hs as [[] _].
Qed.

(** The witness of X12: the filter of the filter test, and the scan of a
    tree with [x-element], [y-element] and [z-element]. *)
Lemma filter_array_allow_list_witness :
  (exists cfg,
     constructor localhost (OptionsObject array_filter_options) = Normal cfg
     /\ Forall (fun job => In (VString (elementName (job_names job)))
                             [VString "x-element"; VString "y-element"])
          (runs_started empty_world
             (observe localhost cfg
                (Elem "DIV" None
                   [Elem "X-ELEMENT" None []; Elem "DIV" (Some "y-element") [];
                    Elem "Z-ELEMENT" None []])
                scan_deep empty_world)))
  /\ init_filter array_filter_options = FilterArray [VString "x-element"; VString "y-element"].
Proof.
  split; [|reflexivity].
  eexists. split; [reflexivity|].
  exact (proj1 (proj2 (filter_array_allow_list localhost array_filter_options _ _ empty_world
                         eq_refl eq_refl)) _ _).
Defined.

(** ** [#scan] on a collection, and the two paths compared *)

Lemma scan_deep_visit_all (P : Platform) (this : Config) (l : list Element) (w : World) :
  scan P this (Elements l) true w = visit_all P this (flat_map preorder l) w.
Proof.
  unfold scan, visit_all. rewrite fold_left_flat_map.
  apply fold_left_pointwise. intros b e _. apply scan_element_preorder.
Qed.

Lemma scan_shallow_visit_all (P : Platform) (this : Config) (l : list Element) (w : World) :
  scan P this (Elements l) false w = visit_all P this l w.
Proof.
  unfold scan, visit_all.
  apply fold_left_pointwise. intros b e _. apply scan_element_shallow.
Qed.

(** X13. [#scan] on a collection visits tree after tree; with [subtree]
    it visits every element of every tree once, in document order, and
    without it the listed elements alone.  The empty collection does
    nothing, and the scan of a concatenation is the scan of the first part
    followed by the scan of the second.  Given a single element, [#scan]
    wraps it only if it has no iterator of its own: an element that has one
    (a form, a select) is scanned as the collection it yields, and is not
    visited itself. *)
Theorem scan_collection (P : Platform) (this : Config) :
  (forall l w, scan P this (Elements l) true w = visit_all P this (flat_map preorder l) w)
  /\ (forall l w, scan P this (Elements l) false w = visit_all P this l w)
  /\ (forall e sub w,
        scan P this (OneElement e) sub w
        = scan P this (Elements (match iterator P e with
                                 | None => [e]
                                 | Some yielded => yielded
                                 end)) sub w)
  /\ (forall sub w, scan P this (Elements []) sub w = w)
  /\ (forall l1 l2 sub w,
        scan P this (Elements (l1 ++ l2)) sub w
        = scan P this (Elements l2) sub (scan P this (Elements l1) sub w))
  /\ (forall e w,
        scan P this (Elements [e]) true w
        = fold_left
            (fun w child =>
               scan P this (Elements (el_children child)) true (onElementAdded P this child w))
            (el_children e) (onElementAdded P this e w)).
Proof.
  split; [|split; [|split; [|split; [|split]]]].
  - apply scan_deep_visit_all.
  - apply scan_shallow_visit_all.
  - reflexivity.
  - reflexivity.
  - intros l1 l2 sub w. unfold scan. apply fold_left_app.
  - intros e w. unfold scan at 1. cbn [fold_left]. apply scan_element_unfold.
Qed.


(** ** Options of [observe], and what a batch can leave out *)

(** X15. [observe] reads its two options one by one.  No options, an
    options value that is no object, and options with both properties
    [undefined] all mean a deep scan; a property that is present counts by
    its truthiness, so [null], [0] or [''] for [subtree] make the scan
    shallow, with [scan] absent or truthy, and for [scan] switch it off, in
    which case nothing is recorded and no run starts. *)
Theorem observe_option_defaults
    (P : Platform) (this : Config) (target : Element) (w : World) :
  (forall v, observe P this target (ObserveValue v) w = observe P this target scan_deep w)
  /\ observe P this target
       (ObserveObject {| init_scan := VUndefined; init_subtree := VUndefined |}) w
     = observe P this target scan_deep w
  /\ (forall sc sub, truthy sc = true -> truthy sub = true ->
        observe P this target (ObserveObject {| init_scan := sc; init_subtree := sub |}) w
        = observe P this target scan_deep w)
  /\ (forall sub, sub <> VUndefined -> truthy sub = false ->
        observe P this target
          (ObserveObject {| init_scan := VUndefined; init_subtree := sub |}) w
        = observe P this target scan_shallow w)
  /\ (forall sc sub, truthy sc = true -> sub <> VUndefined -> truthy sub = false ->
        observe P this target
          (ObserveObject {| init_scan := sc; init_subtree := sub |}) w
        = observe P this target scan_shallow w)
  /\ (forall sc sub, sc <> VUndefined -> truthy sc = false ->
        let w' := observe P this target
                    (ObserveObject {| init_scan := sc; init_subtree := sub |}) w in
        trace w' = trace w /\ inflight w' = inflight w /\ registry w' = registry w).
Proof.
  assert (Hdef : forall v, truthy v = true -> bool_decide (v = VUndefined) = false).
  { intros v Hv. apply bool_decide_eq_false. intros ->. discriminate. }
  split; [reflexivity|]. split; [reflexivity|]. split; [|split; [|split]].
  - intros sc sub Hsc Hsub. unfold observe, resolveObserveOptions.
    cbn [init_scan init_subtree scan_deep]. rewrite (Hdef sc Hsc), (Hdef sub Hsub).
    cbn [negb]. rewrite Hsc, Hsub. reflexivity.
  - intros sub Hsub Hfalsy. unfold observe, resolveObserveOptions.
    cbn [init_scan init_subtree scan_shallow].
    rewrite (bool_decide_eq_false_2 _ Hsub). cbn [negb]. rewrite Hfalsy. reflexivity.
  - intros sc sub Hsc Hsub Hfalsy. unfold observe, resolveObserveOptions.
    cbn [init_scan init_subtree scan_shallow].
    rewrite (Hdef sc Hsc), (bool_decide_eq_false_2 _ Hsub). cbn [negb].
    rewrite Hsc, Hfalsy. reflexivity.
  - intros sc sub Hsc Hfalsy. cbn zeta. unfold observe, resolveObserveOptions.
    cbn [init_scan init_subtree opt_scan].
    rewrite (bool_decide_eq_false_2 _ Hsc). cbn [negb]. rewrite Hfalsy.
    repeat split.
Qed.

(** The witness of X15: [{ scan: null }] switches the scan off. *)
Lemma observe_option_defaults_witness :
  VNull <> VUndefined /\ truthy VNull = false
  /\ trace (observe localhost recording_instance test_scope
              (ObserveObject {| init_scan := VNull; init_subtree := VUndefined |}) empty_world)
     = trace empty_world.
Proof.
  assert (Hne : VNull <> VUndefined) by discriminate.
  split; [exact Hne|]. split; [reflexivity|].
  exact (proj1 (proj2 (proj2 (proj2 (proj2 (proj2
    (observe_option_defaults localhost recording_instance test_scope empty_world)))))
    VNull VUndefined Hne eq_refl)).
Defined.

Lemma added_elements_none (nodes : list Node) :
  forallb (fun n => negb (is_element_node n)) nodes = true -> added_elements nodes = [].
Proof.
  unfold added_elements. induction nodes as [|n nodes IH]; [reflexivity|].
  cbn [forallb]. rewrite andb_true_iff. intros [Hn Hs].
  destruct n; try discriminate; cbn [omap list_omap]; apply IH, Hs.
Qed.

(** X16. A batch in which no record is an [attributes] record and no
    added node is an element (removals, text, comments) changes nothing: no
    callback is called and no run starts. *)
Theorem batch_without_elements
    (P : Platform) (this : Config) (records : list MutationRecord) (w : World) :
  Forall (fun r => type r <> attributes
                   /\ forallb (fun n => negb (is_element_node n)) (addedNodes r) = true)
    records ->
  mutationCallback P this records w = w.
Proof.
  intros Hall. rewrite mutationCallback_visit_all.
  assert (Hnone : reported_elements records = []).
  { unfold reported_elements. induction Hall as [|r records [Ht Hn] _ IH]; [reflexivity|].
    cbn [flat_map]. rewrite fmap_app, IH, app_nil_r.
    unfold record_events. destruct (type r); [congruence| |];
      rewrite (added_elements_none _ Hn); reflexivity. }
  rewrite Hnone. reflexivity.
Qed.

(** The witness of X16: a record that adds a text node and a comment, and
    a record that only removes. *)
Lemma batch_without_elements_witness :
  Forall (fun r => type r <> attributes
                   /\ forallb (fun n => negb (is_element_node n)) (addedNodes r) = true)
    [added test_scope [TextNode "hello"; CommentNode "note"]; added test_scope []]
  /\ mutationCallback localhost recording_instance
       [added test_scope [TextNode "hello"; CommentNode "note"]; added test_scope []]
       empty_world
     = empty_world.
Proof.
  assert (H : Forall (fun r => type r <> attributes
                   /\ forallb (fun n => negb (is_element_node n)) (addedNodes r) = true)
    [added test_scope [TextNode "hello"; CommentNode "note"]; added test_scope []]).
  { repeat constructor; discriminate. }
  split; [exact H|].
  exact (batch_without_elements localhost recording_instance _ empty_world H).
Defined.

(** ** The [is] attribute *)

(** X17. When an element has an [is] attribute, the gate looks at the
    attribute alone: the verdict is the same under every tag name, an
    attribute value that is no valid custom name keeps the element from
    being handled even under a valid custom tag, and a run that does start
    is for the attribute's name, with the tag name kept as the tag to
    extend. *)
Theorem is_attribute_decides
    (P : Platform) (this : Config) (t a : string) (cs : list Element) (w : World) :
  (forall t' cs',
     passes_gate this w (Elem t (Some a) cs) = passes_gate this w (Elem t' (Some a) cs'))
  /\ (isCustomElementName (VString (toLowerCase a)) = false ->
        onElementAdded P this (Elem t (Some a) cs) w = w
        /\ onIsAttributeChanged P this (Elem t (Some a) cs) w = w)
  /\ (passes_gate this w (Elem t (Some a) cs) = true ->
        job_names <$> runs_started w (onElementAdded P this (Elem t (Some a) cs) w)
        = [ {| elementName := toLowerCase a; tagName := toLowerCase t;
               isAttr := Some (toLowerCase a) |} ]).
Proof.
  split; [reflexivity|]. split.
  - intros Hinvalid.
    assert (H : onElementAdded P this (Elem t (Some a) cs) w = w).
    { rewrite onElementAdded_cases. cbn zeta.
      change (handled_name (Elem t (Some a) cs)) with (toLowerCase a).
      unfold eligible. rewrite Hinvalid, andb_false_r. reflexivity. }
    split; exact H.
  - intros Hgate. erewrite runs_started_app; [|apply onElementAdded_run].
    rewrite Hgate. reflexivity.
Qed.

(** The witness of X17: [<x-element is="foo">] is not handled. *)
Lemma is_attribute_decides_witness :
  isCustomElementName (VString (toLowerCase "foo")) = false
  /\ onElementAdded localhost js_instance (Elem "X-ELEMENT" (Some "foo") []) empty_world
     = empty_world.
Proof.
  split; [reflexivity|].
  exact (proj1 (proj1 (proj2
    (is_attribute_decides localhost js_instance "X-ELEMENT" "foo" [] empty_world)) eq_refl)).
Defined.

(** ** Targets that are no elements *)

(** The README asks for each shadow root to be observed.  With the default
    options that call subscribes and then throws in the scan; with
    [scan: false] it subscribes and returns. *)
Example observe_shadow_root :
  snd (observe_node localhost js_instance (ShadowRootNode [Elem "X-ELEMENT" None []])
         (ObserveValue VUndefined) empty_world)
  = Some TAGNAME_UNDEFINED
  /\ runs_started empty_world
       (fst (observe_node localhost js_instance (ShadowRootNode [Elem "X-ELEMENT" None []])
               (ObserveValue VUndefined) empty_world)) = []
  /\ observe_node localhost js_instance (ShadowRootNode [Elem "X-ELEMENT" None []])
       (ObserveObject {| init_scan := VBool false; init_subtree := VUndefined |}) empty_world
     = ({| registry := registry empty_world; trace := []; inflight := [];
           subscription :=
             Some {| sub_target := ShadowRootNode [Elem "X-ELEMENT" None []];
                     sub_attributeFilter := ["is"];
                     sub_childList := true; sub_subtree := true |} |}, None).
Proof. repeat split. Qed.
